(** * unipiSync: Unifi DHCP leases to Pi-hole DNS records

    A shallow embedding of [unipiSync.py] and the properties of its
    reconciliation core: the hostname sanitizer, the duplicate resolver,
    the client filter of [UnifiController.get_active_clients] and the
    loop of [sync_dhcp_to_dns].

    Python strings are sequences of Unicode code points, so a string is a
    list of code points here ([N]); the dictionary of existing records and
    the [Counter] of hostnames are finite maps keyed by such strings.
    Calls to [logging] are not part of the model. *)

From Stdlib Require Import NArith String Ascii.
From stdpp Require Import base option list gmap.

Local Open Scope N_scope.

(** ** Strings *)

Abbreviation str := (list N).

(** The code points of an ASCII literal. *)
Definition cp (s : string) : str :=
  map N_of_ascii (list_ascii_of_string s).

Definition chr_space : N := 32.
Definition chr_apostrophe : N := 39.
Definition chr_hyphen : N := 45.
Definition chr_dot : N := 46.
(** U+2019, RIGHT SINGLE QUOTATION MARK *)
Definition chr_rsquo : N := 8217.

(** [s.replace(old, new)] for one-character [old] and [new]. *)
Definition replace_char (old new : N) (s : str) : str :=
  map (fun c => if c =? old then new else c) s.

(** [re.sub(cls, '', s)] where the pattern [cls] is a single character
    class: every character the class matches is dropped. *)
Definition re_sub_class (cls : N -> bool) (s : str) : str :=
  filter (fun c => negb (cls c)) s.

Definition in_range (lo hi c : N) : bool := (lo <=? c) && (c <=? hi).

(** The class ['’] of the first substitution. *)
Definition class_apostrophes (c : N) : bool :=
  (c =? chr_apostrophe) || (c =? chr_rsquo).

(** The set a-z0-9\-\. of the second substitution, whose pattern is the
    negated class. *)
Definition dns_char (c : N) : bool :=
  in_range 97 122 c || in_range 48 57 c || (c =? chr_hyphen) || (c =? chr_dot).

Definition class_not_dns (c : N) : bool := negb (dns_char c).

(** ** [str.lower] *)

Definition ascii_lower (c : N) : N :=
  if in_range 65 90 c then c + 32 else c.

Section Lower.

(** [str.lower] maps an ASCII character to its ASCII lower case.  For
    the other code points it follows the Unicode character database of
    the interpreter, one code point at a time, to a sequence of code
    points that may depend on the text around it (the final sigma):
    [unicode_lower before c after] is that sequence for the code point
    [c] standing between [before] and [after]. *)
Variable unicode_lower : str -> N -> str -> str.

Fixpoint lower_from (before s : str) : str :=
  match s with
  | [] => []
  | c :: rest =>
      (if c <? 128 then [ascii_lower c] else unicode_lower before c rest)
        ++ lower_from (before ++ [c]) rest
  end.

Definition lower (s : str) : str := lower_from [] s.

(** [UnifiController._sanitize_hostname] *)
Definition _sanitize_hostname (hostname : str) : str :=
  let clean := replace_char chr_space chr_hyphen (lower hostname) in
  let clean := re_sub_class class_apostrophes clean in
  let clean := re_sub_class class_not_dns clean in
  clean.

End Lower.

(** ** The duplicate resolver *)

(** An entry of [client_list]: the dictionary with the keys ['ip'] and
    ['hostname']. *)
Record client := Client { ip : str; hostname : str }.

(** [Counter(names)]: the names are counted one after the other. *)
Definition Counter (names : list str) : gmap str nat :=
  foldl (fun counts k => <[k := S (default 0%nat (counts !! k))]> counts) ∅ names.

(** [counts[k]]; a [Counter] answers 0 for a key it has not seen. *)
Definition Counter_get (counts : gmap str nat) (k : str) : nat :=
  default 0%nat (counts !! k).

(** [s.split(sep)] for a one-character separator: the segments between
    the separators, of which there is always at least one. *)
Fixpoint split (sep : N) (s : str) : list str :=
  match s with
  | [] => [[]]
  | c :: rest =>
      if c =? sep then [] :: split sep rest
      else match split sep rest with
           | seg :: segs => (c :: seg) :: segs
           | [] => [[c]]
           end
  end.

(** [ip.split('.')[-1]] *)
Definition last_octet (ip : str) : str :=
  default [] (last (split chr_dot ip)).

(** The body of the loop of [_handle_duplicates]. *)
Definition rename_client (hostname_counts : gmap str nat)
    (active_clients : list client) (c : client) : list client :=
  let unique_hostname :=
    if (1 <? Counter_get hostname_counts (hostname c))%nat
    then hostname c ++ [chr_hyphen] ++ last_octet (ip c)
    else hostname c in
  active_clients ++ [Client (ip c) unique_hostname].

(** [UnifiController._handle_duplicates] *)
Definition _handle_duplicates (client_list : list client) : list client :=
  let hostname_counts := Counter (map hostname client_list) in
  foldl (rename_client hostname_counts) [] client_list.

(** ** The client filter *)

(** One object of the controller's ['data'] array, with the three keys
    the program reads; [None] is a missing key or a JSON null. *)
Record station := Station {
  sta_ip : option str;
  sta_hostname : option str;
  sta_name : option str
}.

(** Truth value of a string or [None]. *)
Definition truthy (v : option str) : bool :=
  match v with
  | Some (_ :: _) => true
  | _ => false
  end.

(** [a or b] *)
Definition py_or (a b : option str) : option str :=
  if truthy a then a else b.

(** [s.startswith(prefix)] *)
Fixpoint startswith (s prefix : str) : bool :=
  match prefix, s with
  | [], _ => true
  | p :: prefix', c :: s' => (c =? p) && startswith s' prefix'
  | _ :: _, [] => false
  end.

Section Unifi.

Variable unicode_lower : str -> N -> str -> str.

(** The body of the loop of [get_active_clients]. *)
Definition collect_client (allowed_subnets : list str)
    (client_list : list client) (c : station) : list client :=
  match sta_ip c, py_or (sta_hostname c) (sta_name c) with
  | Some ((_ :: _) as ip), Some ((_ :: _) as hostname) =>
      if negb (bool_decide (allowed_subnets = []))
         && negb (existsb (startswith ip) allowed_subnets)
      then client_list
      else
        let clean_hostname := _sanitize_hostname unicode_lower hostname in
        client_list ++ [Client ip clean_hostname]
  | _, _ => client_list
  end.

(** [UnifiController.get_active_clients]; [response] is the ['data']
    array of the controller's answer, [None] when the request or its
    decoding raised. *)
Definition get_active_clients (allowed_subnets : list str)
    (response : option (list station)) : list client :=
  match response with
  | Some clients =>
      let client_list := foldl (collect_client allowed_subnets) [] clients in
      _handle_duplicates client_list
  | None => []
  end.

End Unifi.

(** ** The Pi-hole client and the sync loop *)

(** The part of [Config] the sync reads. *)
Record Config := {
  dns_domain : str;
  allowed_subnets : list str
}.

(** The methods of [PiholeAPI] the sync calls, as it calls them. *)
Inductive call :=
  | Authenticate
  | GetExistingRecords
  | AddDnsRecord (domain ip : str).

(** What the two servers answer during one run: the controller's client
    table, whether [PiholeAPI.authenticate] returns [True], the
    dictionary [PiholeAPI.get_existing_records] returns (empty when the
    request failed) and, for the n-th call of [PiholeAPI.add_dns_record]
    counted from 0, whether it returns [True]. *)
Record World := {
  unifi_data : option (list station);
  auth_ok : bool;
  existing : gmap str str;
  put_ok : nat -> bool
}.

(** The text of the record [PiholeAPI.add_dns_record] puts into the
    request, before it is percent-encoded into the URL. *)
Definition dns_record (pihole_domain domain ip : str) : str :=
  let fqdn := domain ++ [chr_dot] ++ pihole_domain in
  ip ++ [chr_space] ++ fqdn.

(** The four counters of [sync_dhcp_to_dns]. *)
Record counters := Counters {
  added : nat;
  updated : nat;
  skipped : nat;
  failed : nat
}.

(** The state the loop of [sync_dhcp_to_dns] changes: its counters and
    the calls of [add_dns_record] made so far, as pairs of the arguments
    [domain] and [ip]. *)
Record sync_state := SyncState {
  tally : counters;
  puts : list (str * str)
}.

Definition incr_added (st : sync_state) : sync_state :=
  let t := tally st in
  SyncState (Counters (S (added t)) (updated t) (skipped t) (failed t)) (puts st).

Definition incr_updated (st : sync_state) : sync_state :=
  let t := tally st in
  SyncState (Counters (added t) (S (updated t)) (skipped t) (failed t)) (puts st).

Definition incr_skipped (st : sync_state) : sync_state :=
  let t := tally st in
  SyncState (Counters (added t) (updated t) (S (skipped t)) (failed t)) (puts st).

Definition incr_failed (st : sync_state) : sync_state :=
  let t := tally st in
  SyncState (Counters (added t) (updated t) (skipped t) (S (failed t))) (puts st).

(** [pihole.add_dns_record(domain, ip)]: the call is made and the store
    answers. *)
Definition add_dns_record (w : World) (domain ip : str) (st : sync_state)
    : bool * sync_state :=
  (put_ok w (length (puts st)), SyncState (tally st) (puts st ++ [(domain, ip)])).

(** The body of the loop of [sync_dhcp_to_dns]. *)
Definition sync_client (config : Config) (w : World) (dry_run : bool)
    (existing_records : gmap str str) (st : sync_state) (c : client)
    : sync_state :=
  let fqdn := hostname c ++ [chr_dot] ++ dns_domain config in
  let ip := ip c in
  match existing_records !! fqdn with
  | Some old =>
      if bool_decide (old = ip) then incr_skipped st
      else if dry_run then incr_updated st
      else
        let (ok, st) := add_dns_record w (hostname c) ip st in
        if ok then incr_updated st else incr_failed st
  | None =>
      if dry_run then incr_added st
      else
        let (ok, st) := add_dns_record w (hostname c) ip st in
        if ok then incr_added st else incr_failed st
  end.

Definition sync_init : sync_state := SyncState (Counters 0 0 0 0) [].

(** The loop of [sync_dhcp_to_dns] over [clients]. *)
Definition sync_loop (config : Config) (w : World) (dry_run : bool)
    (existing_records : gmap str str) (clients : list client) : sync_state :=
  foldl (sync_client config w dry_run existing_records) sync_init clients.

(** What a run of [sync_dhcp_to_dns] leaves behind: the value it returns,
    the counters of its summary line when it gets that far, and the calls
    it made to the Pi-hole, in order. *)
Record run := Run {
  success : bool;
  summary : option counters;
  trace : list call
}.

Section Sync.

Variable unicode_lower : str -> N -> str -> str.

(** [sync_dhcp_to_dns(config, dry_run)] *)
Definition sync_dhcp_to_dns (config : Config) (w : World) (dry_run : bool)
    : run :=
  let clients :=
    get_active_clients unicode_lower (allowed_subnets config) (unifi_data w) in
  if bool_decide (clients = []) then Run true None []
  else if negb (auth_ok w) then Run false None [Authenticate]
  else
    let existing_records := existing w in
    let st := sync_loop config w dry_run existing_records clients in
    Run (bool_decide (failed (tally st) = 0%nat))
        (Some (tally st))
        ([Authenticate; GetExistingRecords]
           ++ map (fun p => AddDnsRecord p.1 p.2) (puts st)).

End Sync.

(** * The rest of the program *)

(** ** Whitespace *)

(** [c.isspace()] for one code point: the characters [str.split()] and
    [str.strip()] treat as whitespace. *)
Definition isspace (c : N) : bool :=
  in_range 9 13 c || in_range 28 32 c || (c =? 133) || (c =? 160)
  || (c =? 5760) || in_range 8192 8202 c || (c =? 8232) || (c =? 8233)
  || (c =? 8239) || (c =? 8287) || (c =? 12288).

(** [s.split()]: the maximal runs of characters that are not whitespace;
    [cur] is the run being read. *)
Fixpoint split_ws_from (cur s : str) : list str :=
  match s with
  | [] => if bool_decide (cur = []) then [] else [cur]
  | c :: rest =>
      if isspace c
      then (if bool_decide (cur = []) then split_ws_from [] rest
            else cur :: split_ws_from [] rest)
      else split_ws_from (cur ++ [c]) rest
  end.

Definition split_ws (s : str) : list str := split_ws_from [] s.

(** [s.lstrip()] *)
Fixpoint lstrip (s : str) : str :=
  match s with
  | [] => []
  | c :: rest => if isspace c then lstrip rest else s
  end.

(** [s.rstrip()] *)
Definition rstrip (s : str) : str := reverse (lstrip (reverse s)).

(** [s.strip()] *)
Definition strip (s : str) : str := rstrip (lstrip s).

(** [sep.join(l)] *)
Fixpoint join (sep : str) (l : list str) : str :=
  match l with
  | [] => []
  | [x] => x
  | x :: rest => x ++ sep ++ join sep rest
  end.

(** ** [Config] *)

Definition chr_comma : N := 44.

(** The process environment once the dotenv file, if any, is loaded:
    [env key] is the value of the variable [key], [None] when unset. *)
Abbreviation Env := (string -> option str).

(** [os.getenv(key, default)] *)
Definition getenv (env : Env) (key : string) (default : str) : str :=
  match env key with
  | Some v => v
  | None => default
  end.

(** The attributes [Config.__init__] sets.  The five it fetches without
    a default are [None] when the variable is unset. *)
Record EnvConfig := {
  unifi_host : option str;
  unifi_port : str;
  unifi_api_token : option str;
  unifi_site : str;
  pihole_host : option str;
  pihole_password : option str;
  env_dns_domain : option str;
  env_allowed_subnets : list str;
  log_file : str;
  log_level : str
}.

(** The list comprehension over [ALLOWED_SUBNETS]. *)
Definition parse_allowed_subnets (allowed_subnets_str : str) : list str :=
  map strip
    (filter (fun s => strip s <> []) (split chr_comma allowed_subnets_str)).

(** The assignments of [Config.__init__]. *)
Definition Config_load (env : Env) : EnvConfig :=
  {| unifi_host := env "UNIFI_HOST"%string;
     unifi_port := getenv env "UNIFI_PORT" (cp "443");
     unifi_api_token := env "UNIFI_API_TOKEN"%string;
     unifi_site := getenv env "UNIFI_SITE" (cp "default");
     pihole_host := env "PIHOLE_HOST"%string;
     pihole_password := env "PIHOLE_PASSWORD"%string;
     env_dns_domain := env "DNS_DOMAIN"%string;
     env_allowed_subnets :=
       parse_allowed_subnets (getenv env "ALLOWED_SUBNETS" []);
     log_file := getenv env "LOG_FILE" (cp "/var/log/unipiSync.log");
     log_level := getenv env "LOG_LEVEL" (cp "INFO") |}.

(** The dictionary [required] of [Config.validate], in its order. *)
Definition required (c : EnvConfig) : list (string * option str) :=
  [("UNIFI_HOST"%string, unifi_host c);
   ("UNIFI_API_TOKEN"%string, unifi_api_token c);
   ("PIHOLE_HOST"%string, pihole_host c);
   ("PIHOLE_PASSWORD"%string, pihole_password c);
   ("DNS_DOMAIN"%string, env_dns_domain c)].

(** The list [missing] of [Config.validate]. *)
Definition missing (c : EnvConfig) : list string :=
  map fst (filter (fun kv => truthy kv.2 = false) (required c)).

(** [Config.validate]: the message of the [ValueError] it raises, or
    nothing. *)
Definition validate (c : EnvConfig) : option str :=
  if bool_decide (missing c = []) then None
  else Some (cp "Missing required configuration: "
               ++ join (cp ", ") (map cp (missing c))).

(** [Config(config_file)]: the configuration, or the message of the
    [ValueError]. *)
Definition Config_init (env : Env) : str + EnvConfig :=
  let c := Config_load env in
  match validate c with
  | Some message => inl message
  | None => inr c
  end.

(** What [sync_dhcp_to_dns] and the two clients read of a configuration. *)
Definition sync_config (c : EnvConfig) : Config :=
  {| dns_domain := default [] (env_dns_domain c);
     allowed_subnets := env_allowed_subnets c |}.

(** ** [PiholeAPI.get_existing_records] *)

(** The body of the loop over [records]. *)
Definition read_record (existing : gmap str str) (record : str) : gmap str str :=
  match split_ws record with
  | ip :: domain :: _ => <[domain := ip]> existing
  | _ => existing
  end.

(** [PiholeAPI.get_existing_records]; [response] is the array
    [config.dns.hosts] of the answer, [None] when the request or its
    decoding raised. *)
Definition get_existing_records (response : option (list str)) : gmap str str :=
  match response with
  | Some records => foldl read_record ∅ records
  | None => ∅
  end.

(** ** The URL of [PiholeAPI.add_dns_record] *)

(** The UTF-8 encoding of one code point; lone surrogates cannot be
    encoded, and there is no code point above U+10FFFF. *)
Definition utf8_encode_char (c : N) : option (list N) :=
  if c <? 128 then Some [c]
  else if c <? 2048 then Some [192 + c / 64; 128 + c mod 64]
  else if c <? 65536 then
    if in_range 55296 57343 c then None
    else Some [224 + c / 4096; 128 + (c / 64) mod 64; 128 + c mod 64]
  else if c <? 1114112 then
    Some [240 + c / 262144; 128 + (c / 4096) mod 64;
          128 + (c / 64) mod 64; 128 + c mod 64]
  else None.

(** [s.encode('utf-8', 'strict')]; [None] when it raises. *)
Fixpoint utf8_encode (s : str) : option (list N) :=
  match s with
  | [] => Some []
  | c :: rest =>
      match utf8_encode_char c, utf8_encode rest with
      | Some bs, Some bs' => Some (bs ++ bs')
      | _, _ => None
      end
  end.

Section Quote.

(** Whether [quote] leaves the tilde alone, which it does since
    Python 3.7. *)
Variable tilde_safe : bool.

(** The bytes [quote(s)] does not escape: letters, digits, [_.-], the
    tilde as above, and the slash of its default [safe]. *)
Definition quote_safe (b : N) : bool :=
  in_range 65 90 b || in_range 97 122 b || in_range 48 57 b
  || (b =? 95) || (b =? 46) || (b =? 45) || (tilde_safe && (b =? 126))
  || (b =? 47).

(** One digit of ['%{:02X}']. *)
Definition hex_digit (n : N) : N := if n <? 10 then 48 + n else 55 + n.

Definition quote_byte (b : N) : str :=
  if quote_safe b then [b] else [37; hex_digit (b / 16); hex_digit (b mod 16)].

(** [urllib.parse.quote(s)]; [None] when the encoding raises. *)
Definition quote (s : str) : option str :=
  match utf8_encode s with
  | Some bs => Some (flat_map quote_byte bs)
  | None => None
  end.

(** The URL [PiholeAPI.add_dns_record] sends its PUT to; [None] when
    [quote] raises, in which case the method returns [False] without
    sending anything. *)
Definition add_dns_record_url (host pihole_domain domain ip : str)
    : option str :=
  match quote (dns_record pihole_domain domain ip) with
  | Some encoded_record =>
      Some (cp "http://" ++ host ++ cp "/api/config/dns/hosts/"
              ++ encoded_record)
  | None => None
  end.

End Quote.

(** ** [main] *)

(** What [logging.FileHandler(log_file)] does in [setup_logging]: it
    opens the file, raises [PermissionError], which [setup_logging]
    catches, or raises something else, which it does not. *)
Inductive log_handler := LogOpened | LogPermissionError | LogOtherError.

(** What [logging.basicConfig] does with the level [setup_logging] hands
    it: it sets the level, or [Logger.setLevel] raises [ValueError] with
    a message, or it raises [TypeError]. *)
Inductive level_outcome :=
  | LevelSet
  | LevelValueError (message : str)
  | LevelTypeError.

(** What a run of [main] leaves behind: the exit status, the lines it
    printed and the calls made to the Pi-hole. *)
Record finished := Finished {
  exit_status : nat;
  printed : list str;
  pihole_calls : list call
}.

(** The two lines [main] prints when it catches a [ValueError]. *)
Definition configuration_error (e : str) : list str :=
  [cp "Configuration error: " ++ e;
   [10] ++ cp "Please create a config.env file based on config.env.example"].

Section Main.

Variable unicode_lower : str -> N -> str -> str.

(** [set_level log_level] is what
    [root.setLevel(getattr(logging, log_level.upper(), logging.INFO))]
    does inside [logging.basicConfig]: which attributes the [logging]
    module has under an upper-case name, and which of them
    [Logger.setLevel] takes for a level, is the interpreter's business. *)
Variable set_level : str -> level_outcome.

(** [setup_logging(log_file, log_level, verbose)] from the file handler
    on: the lines it prints and how [basicConfig] ends, or nothing when
    the file handler raises what is not caught there. *)
Definition setup_logging (log_file log_level : str) (verbose : bool)
    (handler : log_handler) : option (list str * level_outcome) :=
  let level := if verbose then LevelSet else set_level log_level in
  match handler with
  | LogOpened => Some ([], level)
  | LogPermissionError =>
      Some ([cp "Warning: Cannot write to " ++ log_file
               ++ cp ", logging to stdout only"], level)
  | LogOtherError => None
  end.

(** [main()], for the parsed arguments [--verbose] and [--dry-run];
    interrupts from the keyboard are left out. *)
Definition main (env : Env) (handler : log_handler) (w : World)
    (verbose dry_run : bool) : finished :=
  match Config_init env with
  | inl e => Finished 1 (configuration_error e) []
  | inr config =>
      match setup_logging (log_file config) (log_level config) verbose handler with
      | None => Finished 1 [] []
      | Some (warning, LevelValueError e) =>
          Finished 1 (warning ++ configuration_error e) []
      | Some (warning, LevelTypeError) => Finished 1 warning []
      | Some (warning, LevelSet) =>
          let r := sync_dhcp_to_dns unicode_lower (sync_config config) w dry_run in
          Finished (if success r then 0 else 1) warning (trace r)
      end
  end.

End Main.

(** * The vocabulary of the properties *)

(** The characters a DNS label may hold here: a-z, 0-9, hyphen, dot. *)
Definition dns_alphabet : str := cp "abcdefghijklmnopqrstuvwxyz0123456789-.".

Definition in_alphabet (c : N) : bool := existsb (N.eqb c) dns_alphabet.

(** How often [name] occurs among the hostnames of [client_list]. *)
Definition occurrences (name : str) (client_list : list client) : nat :=
  length (filter (fun n => n = name) (map hostname client_list)).

(** The resolver in the words of its description: an entry whose name
    occurs more than once in the whole input gets the name followed by a
    hyphen and the last segment of its address, any other entry is kept. *)
Definition resolve_entry (client_list : list client) (c : client) : client :=
  if decide (1 < occurrences (hostname c) client_list)%nat
  then Client (ip c) (hostname c ++ cp "-" ++ last_octet (ip c))
  else c.

(** [seg] is the final dot-delimited segment of [s]. *)
Definition final_segment (s seg : str) : Prop :=
  (chr_dot ∉ seg) /\ (s = seg \/ exists p, s = p ++ [chr_dot] ++ seg).

(** The outcome of one record, as the summary line counts it. *)
Inductive label := Added | Updated | Skipped | Failed.

#[local] Instance label_eq_dec : EqDecision label.
Proof. solve_decision. Defined.

(** The name a client is looked up under: its hostname, a dot, the
    domain. *)
Definition fqdn_of (config : Config) (c : client) : str :=
  hostname c ++ cp "." ++ dns_domain config.

(** The reconciler in the words of its description: a record whose fqdn
    the current state lacks is to be added, one present with the same
    address is skipped, one present with another address is to be
    updated. *)
Definition reconcile (config : Config) (current : gmap str str) (c : client)
    : label :=
  match current !! fqdn_of config c with
  | None => Added
  | Some address => if decide (address = ip c) then Skipped else Updated
  end.

(** One more record under a label. *)
Definition bump (l : label) (t : counters) : counters :=
  match l with
  | Added => Counters (S (added t)) (updated t) (skipped t) (failed t)
  | Updated => Counters (added t) (S (updated t)) (skipped t) (failed t)
  | Skipped => Counters (added t) (updated t) (S (skipped t)) (failed t)
  | Failed => Counters (added t) (updated t) (skipped t) (S (failed t))
  end.

Definition count (l : label) (ls : list label) : nat :=
  length (filter (fun x => x = l) ls).

(** The counters after the records of [ls] have been counted on top of
    [t]. *)
Definition tally_add (t : counters) (ls : list label) : counters :=
  Counters (added t + count Added ls) (updated t + count Updated ls)
           (skipped t + count Skipped ls) (failed t + count Failed ls).

(** Whether the loop calls the store for a record with this intended
    outcome. *)
Definition makes_call (dry_run : bool) (intended : label) : bool :=
  negb dry_run && negb (bool_decide (intended = Skipped)).

(** The outcome of a record when the store call it needs, if any, is the
    [k]-th of the run. *)
Definition record_outcome (config : Config) (w : World) (dry_run : bool)
    (current : gmap str str) (k : nat) (c : client) : label :=
  let intended := reconcile config current c in
  if makes_call dry_run intended
  then (if put_ok w k then intended else Failed)
  else intended.

(** The outcomes of the records of [clients], in order, when [k] store
    calls have been made before the first of them. *)
Fixpoint outcomes (config : Config) (w : World) (dry_run : bool)
    (current : gmap str str) (k : nat) (clients : list client) : list label :=
  match clients with
  | [] => []
  | c :: rest =>
      record_outcome config w dry_run current k c
        :: outcomes config w dry_run current
             (if makes_call dry_run (reconcile config current c) then S k else k)
             rest
  end.

(** The records a real run has to write: those not skipped. *)
Definition pending (config : Config) (current : gmap str str)
    (clients : list client) : list client :=
  filter (fun c => reconcile config current c <> Skipped) clients.

Definition call_args (c : client) : str * str := (hostname c, ip c).

(** The store calls that fail among the [n] calls from the [k]-th on. *)
Definition fails (w : World) (k n : nat) : list nat :=
  filter (fun i => put_ok w i = false) (seq k n).

(** The arguments of the calls of [add_dns_record] in a trace. *)
Definition writes (tr : list call) : list (str * str) :=
  omap (fun c => match c with
                 | AddDnsRecord domain ip => Some (domain, ip)
                 | _ => None
                 end) tr.

(** The world [w] with a Pi-hole that accepts every record. *)
Definition all_writes_succeed (w : World) : World :=
  {| unifi_data := unifi_data w; auth_ok := auth_ok w;
     existing := existing w; put_ok := fun _ => true |}.

Definition no_counts : counters := Counters 0 0 0 0.

(** For the examples: a [str.lower] that leaves every code point outside
    ASCII as it is, which is what the interpreter does for the code
    points that have no case. *)
Definition caseless_lower : str -> N -> str -> str := fun _ c _ => [c].

Definition home_lan : Config :=
  {| dns_domain := cp "home.lan"; allowed_subnets := [cp "10.0."] |}.

(** Three clients: a printer the store does not know, a laptop it knows
    under another address and a NAS it knows under this address.  The
    Pi-hole accepts every record it is sent but the second. *)
Definition three_clients : World :=
  {| unifi_data :=
       Some [Station (Some (cp "10.0.0.5")) (Some (cp "Printer")) None;
             Station (Some (cp "10.0.0.7")) None (Some (cp "Kid's Laptop"));
             Station (Some (cp "10.0.0.9")) (Some (cp "nas")) None];
     auth_ok := true;
     existing := <[cp "kids-laptop.home.lan" := cp "10.0.0.3"]>
                   (<[cp "nas.home.lan" := cp "10.0.0.9"]> ∅);
     put_ok := fun k => negb (k =? 1)%nat |}.

(** The same clients in front of a Pi-hole that refuses the password. *)
Definition locked_out : World :=
  {| unifi_data := unifi_data three_clients; auth_ok := false;
     existing := existing three_clients; put_ok := put_ok three_clients |}.

(** One client whose name holds nothing a DNS label may hold. *)
Definition nameless_client : World :=
  {| unifi_data := Some [Station (Some (cp "10.0.0.4")) (Some (cp "???")) None];
     auth_ok := true; existing := ∅; put_ok := fun _ => true |}.

(** A string without whitespace. *)
Definition ws_free (s : str) : Prop := Forall (fun c => isspace c = false) s.

(** The record names [name]: its second token is [name]. *)
Definition names_domain (name : str) (record : str) : Prop :=
  exists ip more, split_ws record = ip :: name :: more.

(** The stations [get_active_clients] keeps, in the words of its loop: a
    station needs an address, a hostname or else a name, and, when
    subnets are configured, an address that starts with one of them. *)
Definition kept (allowed : list str) (s : station) : bool :=
  truthy (sta_ip s)
  && truthy (py_or (sta_hostname s) (sta_name s))
  && (bool_decide (allowed = [])
      || existsb (startswith (default [] (sta_ip s))) allowed).

(** The variables [Config] cannot do without, in the order
    [Config.validate] checks them. *)
Definition required_keys : list string :=
  ["UNIFI_HOST"; "UNIFI_API_TOKEN"; "PIHOLE_HOST"; "PIHOLE_PASSWORD";
   "DNS_DOMAIN"]%string.

(** Those of them that are unset or empty. *)
Definition unset_keys (env : Env) : list string :=
  filter (fun key => truthy (env key) = false) required_keys.

(** The characters a quoted record can hold: the unreserved ones, the
    slash and the percent sign. *)
Definition url_alphabet : str :=
  cp "ABCDEFGHIJKLMNOPQRSTUVWXYZabcdefghijklmnopqrstuvwxyz0123456789_.-~/%".

(** A character [quote] leaves as it is in every version: a letter, a
    digit, one of [_.-] or a slash. *)
Definition plain_char (c : N) : bool := quote_safe false c.

(** What the sanitizer makes of one ASCII character: a space becomes a
    hyphen, a capital letter its small letter. *)
Definition fold_char (c : N) : N :=
  if c =? chr_space then chr_hyphen else ascii_lower c.

(** A lone surrogate, or no code point at all. *)
Definition unencodable (c : N) : Prop :=
  (55296 <= c /\ c <= 57343) \/ 1114112 <= c.

(** A complete environment for the examples. *)
Definition home_env : Env :=
  fun key =>
    if String.eqb key "UNIFI_HOST" then Some (cp "192.168.1.1")
    else if String.eqb key "UNIFI_API_TOKEN" then Some (cp "token")
    else if String.eqb key "PIHOLE_HOST" then Some (cp "192.168.1.2")
    else if String.eqb key "PIHOLE_PASSWORD" then Some (cp "secret")
    else if String.eqb key "DNS_DOMAIN" then Some (cp "home.lan")
    else if String.eqb key "ALLOWED_SUBNETS" then Some (cp "10.0. , 192.168.1.,")
    else None.

(** Two printers, which the resolver has to tell apart. *)
Definition two_printers : option (list station) :=
  Some [Station (Some (cp "10.0.0.5")) (Some (cp "Printer")) None;
        Station (Some (cp "10.0.0.9")) (Some (cp "printer")) None].

(** For the examples: a [logging] module whose attribute [BASIC_FORMAT]
    is a string that is no level; every other name is a level or
    unknown, and then gives the default. *)
Definition known_levels (log_level : str) : level_outcome :=
  if bool_decide (log_level = cp "basic_format"
                  \/ log_level = cp "BASIC_FORMAT")
  then LevelValueError (cp "Unknown level: '%(levelname)s:%(name)s:%(message)s'")
  else LevelSet.

(** The store [current] with every record of [puts] created or
    overwritten under its fqdn. *)
Definition upsert_all (config : Config) (puts : list (str * str))
    (current : gmap str str) : gmap str str :=
  foldl (fun m p => <[p.1 ++ cp "." ++ dns_domain config := p.2]> m)
    current puts.

(** * Properties *)

(** ** The sanitizer *)

Lemma in_alphabet_elem c : in_alphabet c = true -> c ∈ dns_alphabet.
Proof.
  unfold in_alphabet. intros (d & Hd & Heq)%existsb_exists.
  apply N.eqb_eq in Heq. subst d. by apply list_elem_of_In.
Qed.

Lemma dns_char_alphabet c : dns_char c = true -> c ∈ dns_alphabet.
Proof.
  intros Hc. apply in_alphabet_elem.
  assert (Hlt : (N.to_nat c < 123)%nat).
  { unfold dns_char, in_range, chr_hyphen, chr_dot in Hc.
    repeat (apply orb_prop in Hc as [Hc|Hc]);
      try (apply andb_prop in Hc as [_ Hc]; apply N.leb_le in Hc);
      try apply N.eqb_eq in Hc; lia. }
  assert (Hall : forallb
            (fun n => implb (dns_char (N.of_nat n)) (in_alphabet (N.of_nat n)))
            (seq 0 123) = true) by (vm_compute; reflexivity).
  rewrite forallb_forall in Hall.
  specialize (Hall (N.to_nat c) ltac:(apply in_seq; lia)).
  rewrite N2Nat.id, Hc in Hall. exact Hall.
Qed.

Lemma alphabet_dns_char c : c ∈ dns_alphabet -> dns_char c = true.
Proof.
  intros Hc.
  assert (Hall : forallb dns_char dns_alphabet = true) by (vm_compute; reflexivity).
  rewrite forallb_forall in Hall. apply Hall. by apply list_elem_of_In.
Qed.

Lemma re_sub_class_keep cls s :
  Forall (fun c => cls c = false) s -> re_sub_class cls s = s.
Proof.
  unfold re_sub_class. induction 1 as [|c s Hc _ IH]; [done|].
  rewrite filter_cons, Hc. simpl. by rewrite IH.
Qed.

Lemma re_sub_class_Forall cls s :
  Forall (fun c => cls c = false) (re_sub_class cls s).
Proof.
  unfold re_sub_class. induction s as [|c s IH]; [constructor|].
  rewrite filter_cons. destruct (cls c) eqn:Hc; simpl; [done|].
  by constructor.
Qed.

Lemma replace_char_keep old new s :
  Forall (fun c => c <> old) s -> replace_char old new s = s.
Proof.
  unfold replace_char. induction 1 as [|c s Hc _ IH]; [done|].
  simpl. rewrite IH. by destruct (N.eqb_spec c old).
Qed.

Lemma dns_char_ascii_lower c :
  dns_char c = true -> (c <? 128) = true /\ ascii_lower c = c.
Proof.
  intros Hc. apply dns_char_alphabet, list_elem_of_In in Hc.
  assert (Hall : forallb (fun d => (d <? 128) && (ascii_lower d =? d))
                   dns_alphabet = true) by (vm_compute; reflexivity).
  rewrite forallb_forall in Hall. apply Hall, andb_prop in Hc as [H1 H2].
  by apply N.eqb_eq in H2.
Qed.

Section SanitizerFacts.

Variable unicode_lower : str -> N -> str -> str.

Lemma lower_from_dns before s :
  Forall (fun c => dns_char c = true) s ->
  lower_from unicode_lower before s = s.
Proof.
  intros Hs. revert before.
  induction Hs as [|c s Hc _ IH]; intros before; [done|].
  simpl. destruct (dns_char_ascii_lower c Hc) as [-> ->].
  simpl. by rewrite IH.
Qed.

Lemma sanitize_dns_chars x :
  Forall (fun c => dns_char c = true) (_sanitize_hostname unicode_lower x).
Proof.
  unfold _sanitize_hostname.
  eapply Forall_impl; [apply re_sub_class_Forall|].
  intros c Hc. unfold class_not_dns in Hc. by apply negb_false_iff in Hc.
Qed.

Lemma sanitize_fixes_dns s :
  Forall (fun c => dns_char c = true) s ->
  _sanitize_hostname unicode_lower s = s.
Proof.
  intros Hs. unfold _sanitize_hostname, lower.
  rewrite lower_from_dns by done.
  rewrite replace_char_keep.
  2:{ eapply Forall_impl; [exact Hs|]. intros c Hc ->. discriminate Hc. }
  rewrite (re_sub_class_keep class_apostrophes).
  2:{ eapply Forall_impl; [exact Hs|]. intros c Hc.
      apply dns_char_alphabet, list_elem_of_In in Hc.
      assert (Hall : forallb (fun d => negb (class_apostrophes d))
                       dns_alphabet = true) by (vm_compute; reflexivity).
      rewrite forallb_forall in Hall. by apply Hall, negb_true_iff in Hc. }
  apply re_sub_class_keep.
  eapply Forall_impl; [exact Hs|]. intros c Hc.
  unfold class_not_dns. by rewrite Hc.
Qed.

(** C8: the sanitizer is idempotent: sanitizing a sanitized name gives
    the same name back, for every input string. *)
Theorem sanitize_idempotent (x : str) :
  _sanitize_hostname unicode_lower (_sanitize_hostname unicode_lower x)
  = _sanitize_hostname unicode_lower x.
Proof. apply sanitize_fixes_dns, sanitize_dns_chars. Qed.

(** C9: every character of the sanitizer's output is one of
    a-z, 0-9, hyphen and dot, for every input string; "Bob's Phone"
    sanitizes to "bobs-phone" and the empty string to itself. *)
Theorem sanitize_charset :
  (forall x : str,
      Forall (fun c => c ∈ dns_alphabet) (_sanitize_hostname unicode_lower x))
  /\ _sanitize_hostname unicode_lower (cp "Bob's Phone") = cp "bobs-phone"
  /\ _sanitize_hostname unicode_lower [] = [].
Proof.
  split; [|split; vm_compute; reflexivity].
  intros x. eapply Forall_impl; [apply sanitize_dns_chars|].
  intros c. apply dns_char_alphabet.
Qed.

End SanitizerFacts.

(** ** The duplicate resolver *)

Lemma Counter_foldl_get (names : list str) (counts : gmap str nat) (k : str) :
  Counter_get
    (foldl (fun counts k => <[k := S (default 0%nat (counts !! k))]> counts)
       counts names) k
  = (Counter_get counts k + length (filter (fun n => n = k) names))%nat.
Proof.
  revert counts. induction names as [|n names IH]; intros counts; simpl.
  - lia.
  - rewrite IH, filter_cons. unfold Counter_get at 1.
    destruct (decide (n = k)) as [->|Hne].
    + rewrite lookup_insert_eq. simpl. unfold Counter_get. lia.
    + rewrite lookup_insert_ne by done. reflexivity.
Qed.

Lemma Counter_get_occurrences (client_list : list client) (name : str) :
  Counter_get (Counter (map hostname client_list)) name
  = occurrences name client_list.
Proof.
  unfold Counter. rewrite Counter_foldl_get.
  unfold Counter_get. by rewrite lookup_empty.
Qed.

Lemma rename_client_foldl counts (l acc : list client) :
  foldl (rename_client counts) acc l
  = acc ++ map (fun c => Client (ip c)
                  (if (1 <? Counter_get counts (hostname c))%nat
                   then hostname c ++ [chr_hyphen] ++ last_octet (ip c)
                   else hostname c)) l.
Proof.
  revert acc. induction l as [|c l IH]; intros acc; simpl.
  - by rewrite app_nil_r.
  - rewrite IH. unfold rename_client. by rewrite <- app_assoc.
Qed.

Lemma handle_duplicates_map (client_list : list client) :
  _handle_duplicates client_list = map (resolve_entry client_list) client_list.
Proof.
  unfold _handle_duplicates. rewrite rename_client_foldl. simpl.
  apply map_ext. intros c. unfold resolve_entry.
  rewrite Counter_get_occurrences.
  destruct (Nat.ltb_spec 1 (occurrences (hostname c) client_list));
    case_decide; try lia; [reflexivity | by destruct c].
Qed.

(** The segments of [split] hold no separator and, joined by it, give the
    string back. *)
Lemma split_join (sep : N) (s : str) :
  exists init seg,
    split sep s = init ++ [seg]
    /\ Forall (fun x => sep ∉ x) (init ++ [seg])
    /\ s = concat (map (fun x => x ++ [sep]) init) ++ seg.
Proof.
  induction s as [|c rest (init & seg & Hs & Hno & Hj)].
  - exists [], []. simpl. repeat split. repeat constructor. by intros ?%elem_of_nil.
  - simpl. destruct (N.eqb_spec c sep) as [->|Hne].
    + exists ([] :: init), seg. rewrite Hs. simpl. repeat split.
      * constructor; [by intros ?%elem_of_nil | done].
      * by rewrite Hj at 1.
    + rewrite Hs. destruct init as [|i0 init]; simpl in *.
      * exists [], (c :: seg). simpl. repeat split.
        -- constructor; [|constructor]. apply Forall_inv in Hno.
           intros [?|?]%elem_of_cons; [congruence | done].
        -- by rewrite Hj.
      * exists ((c :: i0) :: init), seg. simpl. repeat split.
        -- apply Forall_cons in Hno as [H0 Hno]. constructor; [|done].
           intros [?|?]%elem_of_cons; [congruence | done].
        -- by rewrite Hj.
Qed.

Lemma last_octet_final_segment (ip : str) : final_segment ip (last_octet ip).
Proof.
  unfold last_octet, final_segment.
  destruct (split_join chr_dot ip) as (init & seg & -> & Hno & Hj).
  rewrite last_snoc. simpl. split.
  - apply Forall_app in Hno as [_ Hno]. by apply Forall_inv in Hno.
  - destruct init as [|i init _] using rev_ind; [by left|right].
    rewrite map_app, concat_app in Hj. simpl in Hj.
    exists (concat (map (fun x => x ++ [chr_dot]) init) ++ i).
    rewrite Hj at 1. by rewrite app_nil_r, <- !app_assoc.
Qed.

(** C4: the resolver counts every name over the whole input, then gives
    each entry whose name occurs more than once that name followed by a
    hyphen and the final dot-delimited segment of its address, leaves
    every other entry as it is and keeps the input order; two "printer"
    entries at 10.0.0.5 and 10.0.0.9 become "printer-5" and "printer-9"
    in that order. *)
Theorem handle_duplicates_spec :
  (forall client_list : list client,
      _handle_duplicates client_list
      = map (resolve_entry client_list) client_list)
  /\ (forall ip : str, final_segment ip (last_octet ip))
  /\ _handle_duplicates
       [Client (cp "10.0.0.5") (cp "printer");
        Client (cp "10.0.0.9") (cp "printer")]
     = [Client (cp "10.0.0.5") (cp "printer-5");
        Client (cp "10.0.0.9") (cp "printer-9")].
Proof.
  split; [exact handle_duplicates_map|].
  split; [exact last_octet_final_segment|].
  vm_compute. reflexivity.
Qed.

Lemma map_lookup {A B} (f : A -> B) (l : list A) (i : nat) :
  map f l !! i = f <$> (l !! i).
Proof. revert i. induction l as [|a l IH]; intros [|i]; simpl; auto. Qed.

Lemma occurrences_cons (name : str) (c : client) (l : list client) :
  occurrences name (c :: l)
  = ((if decide (hostname c = name) then 1 else 0) + occurrences name l)%nat.
Proof.
  unfold occurrences. simpl. rewrite filter_cons. by case_decide.
Qed.

Lemma occurrences_lookup (l : list client) (i : nat) (c : client) :
  l !! i = Some c -> (1 <= occurrences (hostname c) l)%nat.
Proof.
  revert i. induction l as [|a l IH]; intros [|i] Hi; simplify_eq/=;
    rewrite occurrences_cons.
  - case_decide; [lia | done].
  - apply IH in Hi. lia.
Qed.

Lemma occurrences_two (l : list client) (i j : nat) (c1 c2 : client) :
  (i < j)%nat -> l !! i = Some c1 -> l !! j = Some c2 ->
  hostname c1 = hostname c2 ->
  (1 < occurrences (hostname c1) l)%nat.
Proof.
  revert i j. induction l as [|a l IH]; intros [|i] [|j] Hlt Hi Hj Heq;
    simplify_eq/=; try lia; rewrite occurrences_cons.
  - apply occurrences_lookup in Hj. rewrite <- Heq in Hj.
    case_decide; [lia | done].
  - assert (1 < occurrences (hostname c1) l)%nat
      by (apply (IH i j); [lia | done..]).
    lia.
Qed.

(** C3, as the code has it: two different entries of the input that share
    a name and whose addresses end in different segments never get the
    same output name. *)
Theorem handle_duplicates_same_name_distinct
    (client_list : list client) (i j : nat) (c1 c2 o1 o2 : client) :
  i <> j ->
  client_list !! i = Some c1 ->
  client_list !! j = Some c2 ->
  hostname c1 = hostname c2 ->
  last_octet (ip c1) <> last_octet (ip c2) ->
  _handle_duplicates client_list !! i = Some o1 ->
  _handle_duplicates client_list !! j = Some o2 ->
  hostname o1 <> hostname o2.
Proof.
  intros Hij H1 H2 Hname Hoct Ho1 Ho2.
  assert (Hocc : (1 < occurrences (hostname c1) client_list)%nat).
  { destruct (Nat.lt_total i j) as [Hlt|[?|Hlt]]; [|done|].
    - by apply (occurrences_two client_list i j c1 c2).
    - rewrite Hname. by apply (occurrences_two client_list j i c2 c1). }
  rewrite handle_duplicates_map, map_lookup in Ho1, Ho2.
  rewrite H1 in Ho1. rewrite H2 in Ho2. simplify_eq/=.
  unfold resolve_entry. rewrite <- Hname.
  rewrite !decide_True by done. simpl.
  intros Heq. apply app_inv_head in Heq. injection Heq as Heq. done.
Qed.

Lemma handle_duplicates_same_name_distinct_witness :
  last_octet (cp "10.0.0.5") <> last_octet (cp "10.0.0.9")
  /\ cp "printer-5" <> cp "printer-9".
Proof.
  assert (Hoct : last_octet (cp "10.0.0.5") <> last_octet (cp "10.0.0.9"))
    by (vm_compute; discriminate).
  split; [exact Hoct|].
  apply (handle_duplicates_same_name_distinct
           [Client (cp "10.0.0.5") (cp "printer");
            Client (cp "10.0.0.9") (cp "printer")]
           0 1
           (Client (cp "10.0.0.5") (cp "printer"))
           (Client (cp "10.0.0.9") (cp "printer"))
           (Client (cp "10.0.0.5") (cp "printer-5"))
           (Client (cp "10.0.0.9") (cp "printer-9")));
    [lia | reflexivity | reflexivity | reflexivity | exact Hoct
    | vm_compute; reflexivity | vm_compute; reflexivity].
Defined.

(** The output names are not pairwise unique in general: of three
    clients, two named "a" at 10.0.0.5 and 10.0.0.6 and one named "a-5"
    at 10.0.0.9, the first and the third both leave as "a-5", although
    their addresses end in different segments. *)
Lemma handle_duplicates_collision :
  let client_list :=
    [Client (cp "10.0.0.5") (cp "a");
     Client (cp "10.0.0.6") (cp "a");
     Client (cp "10.0.0.9") (cp "a-5")] in
  last_octet (cp "10.0.0.5") <> last_octet (cp "10.0.0.9")
  /\ map hostname (_handle_duplicates client_list)
     = [cp "a-5"; cp "a-6"; cp "a-5"]
  /\ ~ NoDup (map hostname (_handle_duplicates client_list)).
Proof.
  assert (Hout : map hostname (_handle_duplicates
            [Client (cp "10.0.0.5") (cp "a");
             Client (cp "10.0.0.6") (cp "a");
             Client (cp "10.0.0.9") (cp "a-5")])
          = [cp "a-5"; cp "a-6"; cp "a-5"]) by (vm_compute; reflexivity).
  cbv zeta. split; [vm_compute; discriminate|]. split; [exact Hout|].
  rewrite Hout. intros Hnd. apply NoDup_cons in Hnd as [Hin _].
  apply Hin. apply list_elem_of_In. right. left. reflexivity.
Qed.

(** ** The sync loop *)

Lemma tally_add_cons t l ls : tally_add (bump l t) ls = tally_add t (l :: ls).
Proof.
  unfold tally_add, count. rewrite !filter_cons.
  destruct l; simpl; f_equal; lia.
Qed.

Lemma tally_add_nil t : tally_add t [] = t.
Proof. destruct t. unfold tally_add, count. simpl. f_equal; lia. Qed.

Lemma sync_client_step config w dry_run current st c :
  sync_client config w dry_run current st c
  = SyncState
      (bump (record_outcome config w dry_run current (length (puts st)) c)
            (tally st))
      (puts st ++ if makes_call dry_run (reconcile config current c)
                  then [call_args c] else []).
Proof.
  unfold sync_client, record_outcome, reconcile, fqdn_of, makes_call,
    add_dns_record, call_args.
  change (cp ".") with [chr_dot].
  destruct (current !! (hostname c ++ [chr_dot] ++ dns_domain config))
    as [old|]; [case_bool_decide; [rewrite decide_True by done
                                  |rewrite decide_False by done]|];
    destruct dry_run; simpl; rewrite ?app_nil_r;
    try destruct (put_ok w (length (puts st))); by destruct st.
Qed.

Lemma sync_fold_outcomes config w dry_run current clients st :
  let st' := foldl (sync_client config w dry_run current) st clients in
  tally st'
  = tally_add (tally st)
      (outcomes config w dry_run current (length (puts st)) clients)
  /\ puts st'
     = puts st ++ (if dry_run then []
                   else map call_args (pending config current clients)).
Proof.
  revert st. induction clients as [|c rest IH]; intros st; simpl.
  - rewrite tally_add_nil. by destruct dry_run; rewrite app_nil_r.
  - destruct (IH (sync_client config w dry_run current st c)) as [Ht Hp].
    rewrite Ht, Hp, sync_client_step. simpl. rewrite tally_add_cons.
    unfold pending. rewrite filter_cons. unfold makes_call.
    destruct dry_run; simpl.
    + by rewrite !app_nil_r.
    + case_bool_decide; case_decide; try done; simpl.
      * by rewrite !app_nil_r.
      * by rewrite length_app, Nat.add_1_r, <- app_assoc.
Qed.

Lemma outcomes_length config w dry_run current k clients :
  length (outcomes config w dry_run current k clients) = length clients.
Proof.
  revert k. induction clients as [|c rest IH]; intros k; simpl; [done|].
  by rewrite IH.
Qed.

Lemma count_total (ls : list label) :
  (count Added ls + count Updated ls + count Skipped ls + count Failed ls
   = length ls)%nat.
Proof.
  unfold count. induction ls as [|l ls IH]; [done|].
  rewrite !filter_cons. destruct l; simpl; lia.
Qed.

Lemma reconcile_not_failed config current c :
  reconcile config current c <> Failed.
Proof.
  unfold reconcile. destruct (current !! fqdn_of config c); [|done].
  by case_decide.
Qed.

Lemma count_failed_reconcile config current clients :
  count Failed (map (reconcile config current) clients) = 0%nat.
Proof.
  unfold count. induction clients as [|c rest IH]; [done|].
  simpl. rewrite filter_cons, decide_False; [done|].
  apply reconcile_not_failed.
Qed.

Lemma outcomes_dry_run config w current k clients :
  outcomes config w true current k clients
  = map (reconcile config current) clients.
Proof.
  revert k. induction clients as [|c rest IH]; intros k; simpl; [done|].
  by rewrite IH.
Qed.

Lemma fails_S w k n :
  fails w k (S n)
  = if put_ok w k then fails w (S k) n else k :: fails w (S k) n.
Proof.
  unfold fails. simpl. rewrite filter_cons.
  destruct (put_ok w k); by case_decide.
Qed.

Lemma pending_cons config current c rest :
  pending config current (c :: rest)
  = if decide (reconcile config current c = Skipped)
    then pending config current rest
    else c :: pending config current rest.
Proof.
  unfold pending. rewrite filter_cons. by repeat case_decide.
Qed.

Lemma makes_call_real config current c :
  makes_call false (reconcile config current c)
  = bool_decide (reconcile config current c <> Skipped).
Proof. unfold makes_call. simpl. by repeat case_bool_decide. Qed.

Lemma outcomes_no_fail config w current k clients :
  fails w k (length (pending config current clients)) = [] ->
  outcomes config w false current k clients
  = map (reconcile config current) clients.
Proof.
  revert k. induction clients as [|c rest IH]; intros k Hf; simpl; [done|].
  rewrite pending_cons in Hf. unfold record_outcome.
  rewrite makes_call_real.
  case_decide as Hc.
  - rewrite bool_decide_false by (by intros ?). by rewrite IH.
  - rewrite bool_decide_true by done. simpl in Hf. rewrite fails_S in Hf.
    destruct (put_ok w k); [|done]. by rewrite IH.
Qed.

Lemma outcomes_one_fail config w current k k0 clients :
  fails w k (length (pending config current clients)) = [k0] ->
  exists i c0,
    clients !! i = Some c0
    /\ reconcile config current c0 <> Skipped
    /\ (k <= k0)%nat
    /\ length (pending config current (take i clients)) = (k0 - k)%nat
    /\ outcomes config w false current k clients
       = <[i := Failed]> (map (reconcile config current) clients).
Proof.
  revert k. induction clients as [|c rest IH]; intros k Hf; [done|].
  rewrite pending_cons in Hf. simpl outcomes. unfold record_outcome.
  rewrite makes_call_real.
  case_decide as Hc.
  - rewrite bool_decide_false by (by intros ?).
    destruct (IH k Hf) as (i & c0 & Hi & Hne & Hle & Hlen & Hout).
    exists (S i), c0. simpl. rewrite pending_cons, decide_True by done.
    by rewrite Hout.
  - rewrite bool_decide_true by done. simpl in Hf. rewrite fails_S in Hf.
    destruct (put_ok w k) eqn:Hk.
    + destruct (IH (S k) Hf) as (i & c0 & Hi & Hne & Hle & Hlen & Hout).
      exists (S i), c0. simpl. rewrite pending_cons, decide_False by done.
      rewrite Hout. simpl. repeat split; try done; lia.
    + injection Hf as <- Hf. exists 0%nat, c. simpl.
      rewrite outcomes_no_fail by done. repeat split; try done; lia.
Qed.

Lemma count_insert_failed (l : label) (ls : list label) (i : nat) (x : label) :
  ls !! i = Some x -> x <> Failed ->
  (count l (<[i := Failed]> ls) + (if decide (x = l) then 1 else 0)
   = count l ls + (if decide (Failed = l) then 1 else 0))%nat.
Proof.
  unfold count. revert i. induction ls as [|y ls IH]; intros [|i] Hi Hx;
    simplify_eq/=; rewrite !filter_cons.
  - repeat case_decide; simplify_eq/=; lia.
  - specialize (IH i Hi Hx). repeat case_decide; simplify_eq/=; lia.
Qed.

Lemma writes_puts (l : list (str * str)) :
  writes (map (fun p => AddDnsRecord p.1 p.2) l) = l.
Proof.
  unfold writes. induction l as [|[d i] l IH]; [done|].
  simpl. f_equal. exact IH.
Qed.

Lemma sync_loop_outcomes config w dry_run current clients :
  sync_loop config w dry_run current clients
  = SyncState
      (tally_add no_counts (outcomes config w dry_run current 0 clients))
      (if dry_run then [] else map call_args (pending config current clients)).
Proof.
  unfold sync_loop.
  destruct (sync_fold_outcomes config w dry_run current clients sync_init)
    as [Ht Hp].
  destruct (foldl _ _ _) as [t p]. simpl in *. by rewrite Ht, Hp.
Qed.

Lemma fails_all_succeed w k n : fails (all_writes_succeed w) k n = [].
Proof.
  revert k. induction n as [|n IH]; intros k; [done|].
  rewrite fails_S. simpl. apply IH.
Qed.

Section RunFacts.

Variable unicode_lower : str -> N -> str -> str.

Lemma sync_run_reaches_loop config w dry_run clients :
  get_active_clients unicode_lower (allowed_subnets config) (unifi_data w)
  = clients ->
  clients <> [] ->
  auth_ok w = true ->
  sync_dhcp_to_dns unicode_lower config w dry_run
  = let t := tally_add no_counts
               (outcomes config w dry_run (existing w) 0 clients) in
    Run (bool_decide (failed t = 0%nat)) (Some t)
        ([Authenticate; GetExistingRecords]
           ++ map (fun p => AddDnsRecord p.1 p.2)
                (if dry_run then []
                 else map call_args (pending config (existing w) clients))).
Proof.
  intros Hc Hne Hauth. unfold sync_dhcp_to_dns. rewrite Hc, Hauth.
  rewrite bool_decide_false by done. simpl negb. cbv iota.
  by rewrite sync_loop_outcomes.
Qed.

Lemma sync_run_no_clients config w dry_run :
  get_active_clients unicode_lower (allowed_subnets config) (unifi_data w)
  = [] ->
  sync_dhcp_to_dns unicode_lower config w dry_run = Run true None [].
Proof.
  intros Hc. unfold sync_dhcp_to_dns. rewrite Hc.
  by rewrite bool_decide_true.
Qed.

Lemma sync_run_auth_fails config w dry_run :
  get_active_clients unicode_lower (allowed_subnets config) (unifi_data w)
  <> [] ->
  auth_ok w = false ->
  sync_dhcp_to_dns unicode_lower config w dry_run
  = Run false None [Authenticate].
Proof.
  intros Hne Hauth. unfold sync_dhcp_to_dns.
  rewrite bool_decide_false by done. by rewrite Hauth.
Qed.

(** C5: a run with [dry_run] set makes no call of [add_dns_record],
    whatever the configuration, the client table and the store hold;
    its summary counts every record under the outcome the reconciler
    intends for it (added, updated or skipped, none failed), which is
    the summary of a real run on the same data whose writes all
    succeed. *)
Theorem dry_run_never_writes (config : Config) (w : World) :
  let clients :=
    get_active_clients unicode_lower (allowed_subnets config) (unifi_data w) in
  let r := sync_dhcp_to_dns unicode_lower config w true in
  writes (trace r) = []
  /\ summary r
     = (if bool_decide (clients = []) || negb (auth_ok w) then None
        else Some (tally_add no_counts
                     (map (reconcile config (existing w)) clients)))
  /\ summary r
     = summary (sync_dhcp_to_dns unicode_lower config
                  (all_writes_succeed w) false).
Proof.
  intros clients r. subst r.
  destruct (decide (clients = [])) as [Hnil|Hne].
  { rewrite !sync_run_no_clients by done.
    by rewrite bool_decide_true. }
  rewrite (bool_decide_false (clients = [])) by done.
  destruct (auth_ok w) eqn:Hauth.
  - rewrite (sync_run_reaches_loop config w true clients) by done.
    rewrite (sync_run_reaches_loop config (all_writes_succeed w) false clients)
      by done.
    simpl. rewrite outcomes_dry_run, outcomes_no_fail
      by apply fails_all_succeed.
    done.
  - rewrite !sync_run_auth_fails by done. done.
Qed.

(** C7: when the Pi-hole refuses the authentication and there are
    clients to sync, the run stops there: it makes no call of
    [add_dns_record] (its only call is the authentication) and it
    returns failure. *)
Theorem auth_failure_aborts (config : Config) (w : World) (dry_run : bool) :
  get_active_clients unicode_lower (allowed_subnets config) (unifi_data w)
  <> [] ->
  auth_ok w = false ->
  let r := sync_dhcp_to_dns unicode_lower config w dry_run in
  success r = false
  /\ writes (trace r) = []
  /\ trace r = [Authenticate]
  /\ summary r = None.
Proof.
  intros Hne Hauth. by rewrite sync_run_auth_fails.
Qed.

End RunFacts.

(** C1, as the code has it: for every record the loop processes, after
    the records before it: when its fqdn is absent from the current
    state, a real run calls [add_dns_record] with its hostname and
    address and counts it as added if the call succeeds and as failed if
    not, and a dry run makes no call and counts it as added; when the
    fqdn is present with the record's address, no call is made and it is
    counted as skipped; when it is present with another address, the
    same holds as for an absent one with updated in place of added. *)
Theorem sync_loop_record
    (config : Config) (w : World) (dry_run : bool) (current : gmap str str)
    (before : list client) (c : client) :
  let st := sync_loop config w dry_run current before in
  let st' := sync_loop config w dry_run current (before ++ [c]) in
  let upsert (intended : label) :=
    if dry_run
    then puts st' = puts st /\ tally st' = bump intended (tally st)
    else puts st' = puts st ++ [(hostname c, ip c)]
         /\ tally st'
            = bump (if put_ok w (length (puts st)) then intended else Failed)
                (tally st) in
  match current !! (hostname c ++ cp "." ++ dns_domain config) with
  | None => upsert Added
  | Some address =>
      if decide (address = ip c)
      then puts st' = puts st /\ tally st' = bump Skipped (tally st)
      else upsert Updated
  end.
Proof.
  intros st st' upsert. subst st st' upsert. unfold sync_loop.
  rewrite foldl_snoc. set (st := foldl _ _ before).
  rewrite sync_client_step. unfold record_outcome, reconcile, fqdn_of.
  destruct (current !! _) as [address|]; [case_decide|];
    destruct dry_run; simpl; rewrite ?app_nil_r; done.
Qed.

(** The rule of C1 read without the outcome of the call: a record whose
    fqdn the store lacks is written, the write fails, and the record is
    counted as failed, not as added. *)
Lemma failed_upsert_not_added :
  let config := {| dns_domain := cp "home.lan"; allowed_subnets := [] |} in
  let w := {| unifi_data := None; auth_ok := true; existing := ∅;
              put_ok := fun _ => false |} in
  let c := Client (cp "1.2.3.4") (cp "pc") in
  let st := sync_loop config w false (existing w) [c] in
  existing w !! (hostname c ++ cp "." ++ dns_domain config) = None
  /\ puts st = [(cp "pc", cp "1.2.3.4")]
  /\ added (tally st) = 0%nat
  /\ failed (tally st) = 1%nat.
Proof. vm_compute. repeat split; reflexivity. Qed.

Lemma reconcile_skipped config current c :
  reconcile config current c = Skipped
  <-> current !! fqdn_of config c = Some (ip c).
Proof.
  unfold reconcile. destruct (current !! fqdn_of config c) as [a|].
  - case_decide; split; intros; simplify_eq; done.
  - split; intros; simplify_eq.
Qed.

Lemma sync_fold_all_skipped config w dry_run current clients st :
  Forall (fun c => reconcile config current c = Skipped) clients ->
  foldl (sync_client config w dry_run current) st clients
  = SyncState
      (Counters (added (tally st)) (updated (tally st))
         (skipped (tally st) + length clients) (failed (tally st)))
      (puts st).
Proof.
  intros Hall. revert st.
  induction Hall as [|c rest Hc _ IH]; intros [[a u s f] p]; simpl.
  - by rewrite Nat.add_0_r.
  - rewrite sync_client_step, IH. unfold record_outcome, makes_call.
    rewrite Hc. destruct dry_run; simpl; rewrite app_nil_r;
      do 2 f_equal; lia.
Qed.

Lemma pending_elem config current clients c :
  c ∈ clients -> reconcile config current c <> Skipped ->
  c ∈ pending config current clients.
Proof. intros Hin Hne. unfold pending. by apply list_elem_of_filter. Qed.

Lemma second_run_skips
    (config : Config) (w1 w2 : World) (dry_run : bool)
    (current1 current2 : gmap str str) (clients : list client) :
  let first := sync_loop config w1 false current1 clients in
  (forall domain ip : str,
      (domain, ip) ∈ puts first ->
      current2 !! (domain ++ cp "." ++ dns_domain config) = Some ip) ->
  (forall c : client,
      c ∈ clients ->
      reconcile config current1 c = Skipped ->
      current2 !! fqdn_of config c = current1 !! fqdn_of config c) ->
  sync_loop config w2 dry_run current2 clients
  = SyncState (Counters 0 0 (length clients) 0) [].
Proof.
  intros first Hput Hkeep. subst first.
  rewrite sync_loop_outcomes in Hput. simpl in Hput.
  unfold sync_loop. rewrite sync_fold_all_skipped; [done|].
  apply Forall_forall. intros c Hin. apply reconcile_skipped.
  destruct (decide (reconcile config current1 c = Skipped)) as [Hs|Hs].
  - rewrite Hkeep by done. by apply reconcile_skipped.
  - apply (Hput (hostname c) (ip c)).
    apply list_elem_of_In, in_map_iff. exists c. split; [done|].
    apply list_elem_of_In. by apply pending_elem.
Qed.

Lemma upsert_all_lookup (config : Config) (puts : list (str * str))
    (m : gmap str str) (k v : str) :
  (forall p : str * str,
      p ∈ puts -> p.1 ++ cp "." ++ dns_domain config = k -> p.2 = v) ->
  (exists p : str * str,
      p ∈ puts /\ p.1 ++ cp "." ++ dns_domain config = k)
  \/ m !! k = Some v ->
  upsert_all config puts m !! k = Some v.
Proof.
  unfold upsert_all.
  induction puts as [|p0 puts IH] using rev_ind; intros Hsame Hsome.
  - destruct Hsome as [(p & Hp & _)|Hm]; [by apply elem_of_nil in Hp | done].
  - rewrite foldl_snoc, lookup_insert. case_decide as Hk.
    + f_equal. apply Hsame; [|done]. apply elem_of_app. right.
      by apply list_elem_of_singleton.
    + apply IH.
      * intros p Hp. apply Hsame, elem_of_app. by left.
      * destruct Hsome as [(p & Hp & Hpk)|Hm]; [left|by right].
        exists p. split; [|done].
        apply elem_of_app in Hp as [Hp|Hp%list_elem_of_singleton];
          [done|by subst].
Qed.

(** C2, as the code has it: take a set of records in which those that
    share an fqdn share the address.  After a first run over it there is
    a store that reflects what that run applied, mapping the fqdn of
    every record the run wrote to the record's address and still holding
    what it held for the records the run skipped: the first store with
    every written record upserted under its fqdn is one.  Against every
    such store a second run over the same records counts every one of
    them as skipped, none as added, updated or failed, and writes
    nothing. *)
Theorem second_run_converges
    (config : Config) (w1 w2 : World) (dry_run : bool)
    (current1 : gmap str str) (clients : list client) :
  (forall c1 c2 : client,
      c1 ∈ clients -> c2 ∈ clients ->
      fqdn_of config c1 = fqdn_of config c2 -> ip c1 = ip c2) ->
  let first := sync_loop config w1 false current1 clients in
  let reflects (current2 : gmap str str) :=
    (forall domain ip : str,
        (domain, ip) ∈ puts first ->
        current2 !! (domain ++ cp "." ++ dns_domain config) = Some ip)
    /\ (forall c : client,
          c ∈ clients ->
          reconcile config current1 c = Skipped ->
          current2 !! fqdn_of config c = current1 !! fqdn_of config c) in
  reflects (upsert_all config (puts first) current1)
  /\ forall current2 : gmap str str,
      reflects current2 ->
      sync_loop config w2 dry_run current2 clients
      = SyncState (Counters 0 0 (length clients) 0) [].
Proof.
  intros Hsame first reflects. split.
  - assert (Hputs : forall p, p ∈ puts first ->
              exists c, c ∈ clients /\ p = (hostname c, ip c)).
    { subst first. rewrite sync_loop_outcomes. simpl.
      intros p (c & <- & Hc)%list_elem_of_In%in_map_iff.
      exists c. split; [|done].
      by apply list_elem_of_In, list_elem_of_filter in Hc as [_ ?]. }
    split.
    + intros domain ip Hin. apply upsert_all_lookup.
      * intros p Hp Hk.
        destruct (Hputs _ Hin) as (c & Hc & [= -> ->]).
        destruct (Hputs _ Hp) as (c' & Hc' & ->). simpl in *.
        by apply Hsame.
      * left. by exists (domain, ip).
    + intros c Hc Hs. apply reconcile_skipped in Hs. rewrite Hs.
      apply upsert_all_lookup; [|by right].
      intros p Hp Hk. destruct (Hputs _ Hp) as (c' & Hc' & ->). simpl in *.
      by apply Hsame.
  - intros current2 [Hput Hkeep].
    exact (second_run_skips config w1 w2 dry_run current1 current2 clients
             Hput Hkeep).
Qed.

Lemma count_all (l : label) (ls : list label) :
  count l ls = length ls -> Forall (fun x => x = l) ls.
Proof.
  induction ls as [|x ls IH]; [constructor|].
  unfold count in *. rewrite filter_cons. simpl.
  pose proof (length_filter (fun y => y = l) ls) as Hle.
  case_decide; simpl; intros Hlen; [|lia].
  constructor; [done|]. apply IH. lia.
Qed.

Lemma outcomes_all_skipped config w dry_run current k clients :
  Forall (fun o => o = Skipped) (outcomes config w dry_run current k clients) ->
  Forall (fun c => reconcile config current c = Skipped) clients.
Proof.
  revert k. induction clients as [|c rest IH]; intros k; [constructor|].
  simpl. intros [Hc Hrest]%Forall_cons. constructor; [|by eapply IH].
  unfold record_outcome in Hc.
  destruct (makes_call _ _); [destruct (put_ok w k)|]; done.
Qed.

Lemma sync_loop_all_skipped_inv config w dry_run current clients :
  sync_loop config w dry_run current clients
  = SyncState (Counters 0 0 (length clients) 0) [] ->
  forall c, c ∈ clients -> current !! fqdn_of config c = Some (ip c).
Proof.
  rewrite sync_loop_outcomes. intros [= _ _ Hsk _ _] c Hc.
  apply reconcile_skipped.
  rewrite <- (outcomes_length config w dry_run current 0 clients) in Hsk.
  apply count_all, outcomes_all_skipped in Hsk.
  by eapply Forall_forall in Hsk.
Qed.

Lemma pending_lookup config current clients i c :
  clients !! i = Some c ->
  reconcile config current c <> Skipped ->
  pending config current clients
    !! length (pending config current (take i clients)) = Some c.
Proof.
  intros Hi Hne. pose proof (take_drop_middle clients i c Hi) as Hs.
  set (pre := take i clients) in *. set (post := drop (S i) clients) in *.
  clearbody pre post. subst clients.
  unfold pending. rewrite filter_app, filter_cons, decide_True by done.
  by rewrite list_lookup_middle.
Qed.

Section PartialFailure.

Variable unicode_lower : str -> N -> str -> str.

(** C6: a run that gets to its loop returns whether its failed counter
    is zero, and its four counters add up to the number of records.
    When exactly one of the calls of [add_dns_record] of a real run
    fails, the record it was made for is counted as failed and every
    other record under its own outcome (added, updated or skipped):
    the failed counter is 1, the three others add up to N-1, every
    record that needed one still got its call, and the run returns
    failure. *)
Theorem partial_failure
    (config : Config) (w : World) (dry_run : bool) (clients : list client) :
  get_active_clients unicode_lower (allowed_subnets config) (unifi_data w)
  = clients ->
  clients <> [] ->
  auth_ok w = true ->
  let r := sync_dhcp_to_dns unicode_lower config w dry_run in
  let intended := map (reconcile config (existing w)) clients in
  let todo := pending config (existing w) clients in
  exists t : counters,
    summary r = Some t
    /\ success r = bool_decide (failed t = 0%nat)
    /\ (added t + updated t + skipped t + failed t)%nat = length clients
    /\ forall k0 : nat,
        dry_run = false ->
        fails w 0 (length todo) = [k0] ->
        exists (i : nat) (c0 : client),
          clients !! i = Some c0
          /\ todo !! k0 = Some c0
          /\ t = tally_add no_counts (<[i := Failed]> intended)
          /\ failed t = 1%nat
          /\ (added t + updated t + skipped t)%nat = (length clients - 1)%nat
          /\ writes (trace r) = map call_args todo
          /\ success r = false.
Proof.
  intros Hc Hne Hauth r intended todo. subst r.
  rewrite (sync_run_reaches_loop unicode_lower config w dry_run clients)
    by done.
  cbv zeta.
  set (outs := outcomes config w dry_run (existing w) 0 clients).
  remember (tally_add no_counts outs) as t eqn:Ht.
  cbn [success summary trace].
  assert (Hsum :
    (added t + updated t + skipped t + failed t)%nat = length clients).
  { rewrite Ht. simpl. rewrite <- (outcomes_length config w dry_run
      (existing w) 0 clients). fold outs.
    pose proof (count_total outs). lia. }
  exists t. split; [done|]. split; [done|]. split; [exact Hsum|].
  intros k0 -> Hfail.
  destruct (outcomes_one_fail config w (existing w) 0 k0 clients Hfail)
    as (i & c0 & Hi & Hns & _ & Hlen & Hout).
  fold outs in Hout. clearbody outs. subst outs.
  exists i, c0.
  assert (Hi' : intended !! i = Some (reconcile config (existing w) c0)).
  { subst intended. by rewrite map_lookup, Hi. }
  assert (Hf : failed t = 1%nat).
  { rewrite Ht. simpl.
    pose proof (count_insert_failed Failed intended i _ Hi'
                  (reconcile_not_failed _ _ _)) as Hcnt.
    fold intended. subst intended.
    rewrite count_failed_reconcile in Hcnt.
    rewrite decide_False in Hcnt by apply reconcile_not_failed.
    rewrite decide_True in Hcnt by done. lia. }
  split; [done|]. split.
  { subst todo. rewrite <- (Nat.sub_0_r k0), <- Hlen.
    by apply pending_lookup. }
  split; [done|].
  split; [done|]. split; [lia|]. split; [exact (writes_puts _)|].
  rewrite Hf. done.
Qed.

End PartialFailure.

(** ** Names that sanitize to nothing *)

Section EmptyName.

Variable unicode_lower : str -> N -> str -> str.

Lemma collect_client_mono allowed acc s (x : client) :
  x ∈ acc -> x ∈ collect_client unicode_lower allowed acc s.
Proof.
  intros Hx. unfold collect_client.
  destruct (sta_ip s) as [[|? ?]|]; [done| |done].
  destruct (py_or _ _) as [[|? ?]|]; [done| |done].
  destruct (_ && _); [done|]. apply elem_of_app. by left.
Qed.

Lemma collect_foldl_mono allowed stations acc (x : client) :
  x ∈ acc -> x ∈ foldl (collect_client unicode_lower allowed) acc stations.
Proof.
  revert acc. induction stations as [|s stations IH]; intros acc Hx; [done|].
  simpl. by apply IH, collect_client_mono.
Qed.

Lemma collect_client_accepts allowed acc s (address raw : str) :
  sta_ip s = Some address -> address <> [] ->
  py_or (sta_hostname s) (sta_name s) = Some raw -> raw <> [] ->
  (allowed = []
   \/ exists subnet, subnet ∈ allowed /\ startswith address subnet = true) ->
  collect_client unicode_lower allowed acc s
  = acc ++ [Client address (_sanitize_hostname unicode_lower raw)].
Proof.
  intros Hip Ha Hname Hr Hallowed. unfold collect_client.
  rewrite Hip, Hname. destruct address as [|a address]; [done|].
  destruct raw as [|b raw]; [done|].
  assert (negb (bool_decide (allowed = []))
          && negb (existsb (startswith (a :: address)) allowed) = false)
    as Hcond.
  { destruct Hallowed as [->|(subnet & Hin & Hs)]; [done|].
    apply andb_false_iff. right. apply negb_false_iff, existsb_exists.
    exists subnet. split; [by apply list_elem_of_In | done]. }
  by rewrite Hcond.
Qed.

Lemma collect_foldl_elem allowed stations acc s (address raw : str) :
  s ∈ stations ->
  sta_ip s = Some address -> address <> [] ->
  py_or (sta_hostname s) (sta_name s) = Some raw -> raw <> [] ->
  (allowed = []
   \/ exists subnet, subnet ∈ allowed /\ startswith address subnet = true) ->
  Client address (_sanitize_hostname unicode_lower raw)
    ∈ foldl (collect_client unicode_lower allowed) acc stations.
Proof.
  intros Hin Hip Ha Hname Hr Hallowed. revert acc.
  induction stations as [|s' stations IH]; intros acc.
  - by apply elem_of_nil in Hin.
  - simpl. apply elem_of_cons in Hin as [<-|Hin].
    + apply collect_foldl_mono.
      rewrite (collect_client_accepts allowed acc s address raw) by done.
      apply elem_of_app. right. by apply list_elem_of_singleton.
    + by apply IH.
Qed.

(** C10: a client the controller reports with an address and a
    non-empty name that sanitizes to the empty string, when no other
    collected client has the empty name, stays in the list of active
    clients with the empty name; the sync looks it up under a dot
    followed by the domain and, in a real run that has authenticated
    and does not find that name with this address in the store, calls
    [add_dns_record] with the empty name, which puts the address, a
    space, a dot and the domain into the request. *)
Theorem empty_name_still_synced
    (config : Config) (w : World) (stations : list station) (s : station)
    (address raw : str) :
  unifi_data w = Some stations ->
  s ∈ stations ->
  sta_ip s = Some address -> address <> [] ->
  py_or (sta_hostname s) (sta_name s) = Some raw -> raw <> [] ->
  (allowed_subnets config = []
   \/ exists subnet,
       subnet ∈ allowed_subnets config /\ startswith address subnet = true) ->
  _sanitize_hostname unicode_lower raw = [] ->
  occurrences []
    (foldl (collect_client unicode_lower (allowed_subnets config)) [] stations)
  = 1%nat ->
  let c := Client address [] in
  let r := sync_dhcp_to_dns unicode_lower config w false in
  c ∈ get_active_clients unicode_lower (allowed_subnets config) (unifi_data w)
  /\ fqdn_of config c = cp "." ++ dns_domain config
  /\ dns_record (dns_domain config) (hostname c) (ip c)
     = address ++ cp " ." ++ dns_domain config
  /\ (auth_ok w = true ->
      existing w !! (cp "." ++ dns_domain config) <> Some address ->
      AddDnsRecord [] address ∈ trace r).
Proof.
  intros Hdata Hin Hip Ha Hname Hr Hallowed Hsan Hocc c r.
  assert (Hc : c ∈ get_active_clients unicode_lower (allowed_subnets config)
                 (unifi_data w)).
  { rewrite Hdata. unfold get_active_clients.
    set (client_list := foldl _ _ _) in *.
    rewrite handle_duplicates_map. apply list_elem_of_In, in_map_iff.
    exists c. split.
    - unfold resolve_entry. simpl. rewrite Hocc. by rewrite decide_False by lia.
    - apply list_elem_of_In. subst c client_list. rewrite <- Hsan.
      by apply collect_foldl_elem with (s := s). }
  split; [exact Hc|]. split; [done|]. split.
  { reflexivity. }
  intros Hauth Hex. subst r.
  rewrite (sync_run_reaches_loop unicode_lower config w false _ eq_refl);
    [|by intros Hnil; rewrite Hnil in Hc; apply elem_of_nil in Hc|done].
  cbn [trace]. apply elem_of_app. right.
  apply list_elem_of_In, in_map_iff. exists (call_args c). split; [done|].
  apply in_map, list_elem_of_In, pending_elem; [done|].
  intros Hs. apply reconcile_skipped in Hs. done.
Qed.

End EmptyName.

(** ** Concrete runs *)

Lemma partial_failure_witness :
  exists t : counters,
    summary (sync_dhcp_to_dns caseless_lower home_lan three_clients false)
    = Some t
    /\ t = Counters 1 0 1 1
    /\ success (sync_dhcp_to_dns caseless_lower home_lan three_clients false)
       = false.
Proof.
  destruct (partial_failure caseless_lower home_lan three_clients false
              [Client (cp "10.0.0.5") (cp "printer");
               Client (cp "10.0.0.7") (cp "kids-laptop");
               Client (cp "10.0.0.9") (cp "nas")])
    as (t & Hsum & _ & _ & Hone);
    [vm_compute; reflexivity | discriminate | reflexivity |].
  destruct (Hone 1%nat) as (i & c0 & _ & _ & _ & _ & _ & _ & Hfalse);
    [reflexivity | vm_compute; reflexivity |].
  exists t. split; [exact Hsum|]. split; [|exact Hfalse].
  vm_compute in Hsum. by injection Hsum as <-.
Defined.

Lemma auth_failure_aborts_witness :
  success (sync_dhcp_to_dns caseless_lower home_lan locked_out false) = false
  /\ writes (trace (sync_dhcp_to_dns caseless_lower home_lan locked_out false))
     = [].
Proof.
  destruct (auth_failure_aborts caseless_lower home_lan locked_out false)
    as (Hs & Hw & _); [vm_compute; discriminate | reflexivity |].
  split; [exact Hs | exact Hw].
Defined.

Lemma second_run_converges_witness :
  let clients := [Client (cp "10.0.0.5") (cp "printer");
                  Client (cp "10.0.0.7") (cp "kids-laptop")] in
  let after_first := <[cp "printer.home.lan" := cp "10.0.0.5"]>
                       (<[cp "kids-laptop.home.lan" := cp "10.0.0.7"]> ∅) in
  sync_loop home_lan three_clients false after_first clients
  = SyncState (Counters 0 0 2 0) [].
Proof.
  cbv zeta.
  destruct (second_run_converges home_lan (all_writes_succeed three_clients)
              three_clients false ∅
              [Client (cp "10.0.0.5") (cp "printer");
               Client (cp "10.0.0.7") (cp "kids-laptop")]) as [_ Hall].
  - intros c1 c2 H1 H2. apply list_elem_of_In in H1, H2. simpl in H1, H2.
    destruct H1 as [<-|[<-|[]]], H2 as [<-|[<-|[]]]; vm_compute; congruence.
  - apply Hall. split.
    + intros domain ip Hin. apply list_elem_of_In in Hin. vm_compute in Hin.
      destruct Hin as [Heq|[Heq|[]]]; injection Heq as <- <-;
        vm_compute; reflexivity.
    + intros c _ Hs. unfold reconcile in Hs. rewrite lookup_empty in Hs.
      discriminate Hs.
Defined.

(** The convergence law does not hold for every set of records.  Two
    printers at 10.0.0.5 and 10.0.1.5 both leave the resolver as
    printer-5.  A first run against an empty store adds both.  Against
    the hosts array that run wrote, read back, a second run updates the
    first and skips the second; and no store at all makes a run skip
    both. *)
Lemma shared_fqdn_never_converges :
  let stations :=
    Some [Station (Some (cp "10.0.0.5")) (Some (cp "Printer")) None;
          Station (Some (cp "10.0.1.5")) (Some (cp "printer")) None] in
  let config := {| dns_domain := cp "home.lan"; allowed_subnets := [] |} in
  let w := {| unifi_data := stations; auth_ok := true; existing := ∅;
              put_ok := fun _ => true |} in
  let clients := get_active_clients caseless_lower [] stations in
  let first := sync_loop config w false ∅ clients in
  let read_back :=
    get_existing_records
      (Some (map (fun p => dns_record (dns_domain config) p.1 p.2)
               (puts first))) in
  clients = [Client (cp "10.0.0.5") (cp "printer-5");
             Client (cp "10.0.1.5") (cp "printer-5")]
  /\ first = SyncState (Counters 2 0 0 0)
               [(cp "printer-5", cp "10.0.0.5"); (cp "printer-5", cp "10.0.1.5")]
  /\ sync_loop config w false read_back clients
     = SyncState (Counters 0 1 1 0) [(cp "printer-5", cp "10.0.0.5")]
  /\ ~ (exists (current2 : gmap str str) (dry_run : bool),
          sync_loop config w dry_run current2 clients
          = SyncState (Counters 0 0 (length clients) 0) []).
Proof.
  cbv zeta.
  assert (Hclients :
    get_active_clients caseless_lower []
      (Some [Station (Some (cp "10.0.0.5")) (Some (cp "Printer")) None;
             Station (Some (cp "10.0.1.5")) (Some (cp "printer")) None])
    = [Client (cp "10.0.0.5") (cp "printer-5");
       Client (cp "10.0.1.5") (cp "printer-5")]) by (vm_compute; reflexivity).
  rewrite Hclients.
  split; [reflexivity|]. split; [vm_compute; reflexivity|].
  split; [vm_compute; reflexivity|].
  intros (current2 & dry_run & Hall).
  pose proof (sync_loop_all_skipped_inv _ _ _ _ _ Hall) as Hlook.
  assert (H1 := Hlook (Client (cp "10.0.0.5") (cp "printer-5"))
                  ltac:(apply list_elem_of_In; left; reflexivity)).
  assert (H2 := Hlook (Client (cp "10.0.1.5") (cp "printer-5"))
                  ltac:(apply list_elem_of_In; right; left; reflexivity)).
  change (fqdn_of _ (Client (cp "10.0.1.5") (cp "printer-5")))
    with (fqdn_of {| dns_domain := cp "home.lan"; allowed_subnets := [] |}
            (Client (cp "10.0.0.5") (cp "printer-5"))) in H2.
  rewrite H1 in H2. vm_compute in H2. discriminate H2.
Qed.

Lemma empty_name_still_synced_witness :
  Client (cp "10.0.0.4") []
    ∈ get_active_clients caseless_lower (allowed_subnets home_lan)
        (unifi_data nameless_client)
  /\ AddDnsRecord [] (cp "10.0.0.4")
       ∈ trace (sync_dhcp_to_dns caseless_lower home_lan nameless_client false).
Proof.
  destruct (empty_name_still_synced caseless_lower home_lan nameless_client
              [Station (Some (cp "10.0.0.4")) (Some (cp "???")) None]
              (Station (Some (cp "10.0.0.4")) (Some (cp "???")) None)
              (cp "10.0.0.4") (cp "???"))
    as (Hin & _ & _ & Hcall).
  - reflexivity.
  - apply list_elem_of_In. left. reflexivity.
  - reflexivity.
  - vm_compute. discriminate.
  - reflexivity.
  - vm_compute. discriminate.
  - right. exists (cp "10.0."). split.
    + apply list_elem_of_In. left. reflexivity.
    + vm_compute. reflexivity.
  - vm_compute. reflexivity.
  - vm_compute. reflexivity.
  - split; [exact Hin|]. apply Hcall; [reflexivity|].
    vm_compute. discriminate.
Defined.

Example sanitize_right_quote :
  _sanitize_hostname caseless_lower (cp "Kid" ++ [chr_rsquo] ++ cp "s Laptop")
  = cp "kids-laptop".
Proof. vm_compute. reflexivity. Qed.

Example sanitize_all_invalid :
  _sanitize_hostname caseless_lower (cp "???") = [].
Proof. vm_compute. reflexivity. Qed.

Example last_octet_ipv4 : last_octet (cp "10.0.0.5") = cp "5".
Proof. vm_compute. reflexivity. Qed.

Example last_octet_no_dot : last_octet (cp "fe80::1") = cp "fe80::1".
Proof. vm_compute. reflexivity. Qed.

Example last_octet_trailing_dot : last_octet (cp "10.0.0.") = [].
Proof. vm_compute. reflexivity. Qed.

(** Two clients whose names sanitize to the same label, in front of an
    empty store: both are renamed after their addresses and added. *)
Example kids_laptops_added :
  let w := {| unifi_data :=
                Some [Station (Some (cp "1.2.3.4")) (Some (cp "Kid's Laptop")) None;
                      Station (Some (cp "1.2.3.5")) (Some (cp "kids-laptop")) None];
              auth_ok := true; existing := ∅; put_ok := fun _ => true |} in
  let config := {| dns_domain := cp "home.lan"; allowed_subnets := [] |} in
  sync_dhcp_to_dns caseless_lower config w false
  = Run true (Some (Counters 2 0 0 0))
      [Authenticate; GetExistingRecords;
       AddDnsRecord (cp "kids-laptop-4") (cp "1.2.3.4");
       AddDnsRecord (cp "kids-laptop-5") (cp "1.2.3.5")].
Proof. vm_compute. reflexivity. Qed.

(** The three clients in a real run: the printer is added, the write for
    the laptop fails, the NAS is skipped. *)
Example three_clients_run :
  sync_dhcp_to_dns caseless_lower home_lan three_clients false
  = Run false (Some (Counters 1 0 1 1))
      [Authenticate; GetExistingRecords;
       AddDnsRecord (cp "printer") (cp "10.0.0.5");
       AddDnsRecord (cp "kids-laptop") (cp "10.0.0.7")].
Proof. vm_compute. reflexivity. Qed.

(** The same clients in a dry run: nothing is written, and the laptop is
    counted as updated. *)
Example three_clients_dry_run :
  sync_dhcp_to_dns caseless_lower home_lan three_clients true
  = Run true (Some (Counters 1 1 1 0)) [Authenticate; GetExistingRecords].
Proof. vm_compute. reflexivity. Qed.

(** ** The tokenizer and the existing records *)

Lemma split_ws_from_tokens (cur s : str) :
  ws_free cur ->
  Forall (fun t => t <> [] /\ ws_free t) (split_ws_from cur s).
Proof.
  revert cur. induction s as [|c rest IH]; intros cur Hcur; simpl.
  - case_bool_decide; [constructor|]. by repeat constructor.
  - destruct (isspace c) eqn:Hc.
    + case_bool_decide; [by apply IH; constructor|].
      constructor; [done|]. apply IH. constructor.
    + apply IH. apply Forall_app. split; [done|]. by repeat constructor.
Qed.

Lemma split_ws_tokens (s : str) :
  Forall (fun t => t <> [] /\ ws_free t) (split_ws s).
Proof. apply split_ws_from_tokens. constructor. Qed.

Lemma split_ws_from_word (cur word rest : str) :
  ws_free word ->
  split_ws_from cur (word ++ rest) = split_ws_from (cur ++ word) rest.
Proof.
  intros Hw. revert cur. induction Hw as [|c word Hc _ IH]; intros cur; simpl.
  - by rewrite app_nil_r.
  - rewrite Hc, IH. by rewrite <- app_assoc.
Qed.

Lemma split_ws_two_words (a b : str) :
  a <> [] -> b <> [] -> ws_free a -> ws_free b ->
  split_ws (a ++ [chr_space] ++ b) = [a; b].
Proof.
  intros Ha Hb Hwa Hwb. unfold split_ws.
  rewrite split_ws_from_word by done. simpl.
  rewrite bool_decide_false by done.
  rewrite <- (app_nil_r b) at 1. rewrite split_ws_from_word by done.
  simpl. by rewrite bool_decide_false.
Qed.

Lemma read_record_lookup (m : gmap str str) (record name : str) :
  read_record m record !! name
  = match split_ws record with
    | ip :: domain :: _ => if decide (domain = name) then Some ip else m !! name
    | _ => m !! name
    end.
Proof.
  unfold read_record. destruct (split_ws record) as [|ip [|domain more]]; try done.
  by rewrite lookup_insert.
Qed.

Lemma read_record_other (m : gmap str str) (record name : str) :
  ~ names_domain name record ->
  read_record m record !! name = m !! name.
Proof.
  intros Hn. rewrite read_record_lookup.
  destruct (split_ws record) as [|ip [|domain more]] eqn:Hs; try done.
  case_decide; [|done]. subst. exfalso. apply Hn. by exists ip, more.
Qed.

(** Every key and every value of the dictionary of existing records is a
    token of [str.split()]: not empty and free of whitespace. *)
Theorem existing_records_tokens (records : list str) (name ip : str) :
  get_existing_records (Some records) !! name = Some ip ->
  name <> [] /\ ip <> [] /\ ws_free name /\ ws_free ip.
Proof.
  simpl. induction records as [|r records IH] using rev_ind.
  - simpl. by rewrite lookup_empty.
  - rewrite foldl_snoc, read_record_lookup.
    pose proof (split_ws_tokens r) as Htok.
    destruct (split_ws r) as [|ip' [|domain more]]; try done.
    case_decide; [|done]. intros [= ->]. subst.
    apply Forall_cons in Htok as [[? ?] Htok].
    apply Forall_cons in Htok as [[? ?] _]. done.
Qed.

Lemma existing_lookup_last (records : list str) (name ip : str) :
  get_existing_records (Some records) !! name = Some ip
  <-> exists (before after : list str) (record : str) (more : list str),
      records = before ++ record :: after
      /\ split_ws record = ip :: name :: more
      /\ Forall (fun r => ~ names_domain name r) after.
Proof.
  simpl. split.
  - induction records as [|r records IH] using rev_ind.
    + simpl. by rewrite lookup_empty.
    + rewrite foldl_snoc.
      destruct (split_ws r) as [|ip' [|domain more]] eqn:Hs.
      * rewrite read_record_other
          by (intros (? & ? & ?); congruence).
        intros (before & after & record & more & -> & Hrec & Hafter)%IH.
        exists before, (after ++ [r]), record, more.
        rewrite <- app_assoc. repeat split; [done|].
        apply Forall_app. split; [done|]. repeat constructor.
        intros (? & ? & ?); congruence.
      * rewrite read_record_other
          by (intros (? & ? & ?); congruence).
        intros (before & after & record & more & -> & Hrec & Hafter)%IH.
        exists before, (after ++ [r]), record, more.
        rewrite <- app_assoc. repeat split; [done|].
        apply Forall_app. split; [done|]. repeat constructor.
        intros (? & ? & ?); congruence.
      * rewrite read_record_lookup, Hs. case_decide as Hd.
        -- intros [= ->]. subst. exists records, [], r, more. by repeat split.
        -- intros (before & after & record & more' & -> & Hrec & Hafter)%IH.
           exists before, (after ++ [r]), record, more'.
           rewrite <- app_assoc. repeat split; [done|].
           apply Forall_app. split; [done|]. repeat constructor.
           intros (? & ? & ?); congruence.
  - intros (before & after & record & more & -> & Hrec & Hafter).
    induction after as [|r after IH] using rev_ind.
    + rewrite foldl_snoc, read_record_lookup, Hrec. by rewrite decide_True.
    + apply Forall_app in Hafter as [Hafter Hr]. apply Forall_inv in Hr.
      rewrite app_comm_cons, app_assoc, foldl_snoc.
      rewrite read_record_other by done. by apply IH.
Qed.

(** The dictionary of existing records maps a name to the address of the
    last record that names it; records with fewer than two tokens and
    the tokens after the second play no part. *)
Theorem existing_records_last_wins (records : list str) (name ip : str) :
  get_existing_records (Some records) !! name = Some ip
  <-> exists (before after : list str) (record : str) (more : list str),
      records = before ++ record :: after
      /\ split_ws record = ip :: name :: more
      /\ Forall (fun r => ~ names_domain name r) after.
Proof. apply existing_lookup_last. Qed.

Lemma split_ws_dns_record (pihole_domain domain ip : str) :
  ip <> [] -> ws_free ip -> ws_free domain -> ws_free pihole_domain ->
  split_ws (dns_record pihole_domain domain ip)
  = [ip; domain ++ cp "." ++ pihole_domain].
Proof.
  intros Hip Hwip Hwd Hwp. unfold dns_record.
  rewrite split_ws_two_words; [done|done| |done|].
  - by destruct domain.
  - apply Forall_app. split; [done|]. apply Forall_app. split; [|done].
    by repeat constructor.
Qed.

(** What [add_dns_record] writes, [get_existing_records] reads back: a
    hosts array that ends with the record of a name and an address maps
    the fqdn of the name to the address, when neither holds whitespace
    and the address is not empty. *)
Theorem record_read_back
    (records : list str) (pihole_domain domain ip : str) :
  ip <> [] -> ws_free ip -> ws_free domain -> ws_free pihole_domain ->
  get_existing_records
    (Some (records ++ [dns_record pihole_domain domain ip]))
    !! (domain ++ cp "." ++ pihole_domain)
  = Some ip.
Proof.
  intros Hip Hwip Hwd Hwp. simpl.
  rewrite foldl_snoc, read_record_lookup, split_ws_dns_record by done.
  by rewrite decide_True.
Qed.

(** ** More on the sync loop *)

Lemma written_records_lookup (config : Config) (m : gmap str str)
    (clients : list client) (c : client) :
  ws_free (dns_domain config) ->
  Forall (fun c => ip c <> [] /\ ws_free (ip c) /\ ws_free (hostname c)) clients ->
  (forall c', c' ∈ clients -> fqdn_of config c' = fqdn_of config c ->
              ip c' = ip c) ->
  c ∈ clients ->
  foldl read_record m
    (map (fun c => dns_record (dns_domain config) (hostname c) (ip c)) clients)
    !! fqdn_of config c
  = Some (ip c).
Proof.
  intros Hdom. induction clients as [|c0 clients IH] using rev_ind;
    intros Hwf Hsame Hin.
  - by apply elem_of_nil in Hin.
  - apply Forall_app in Hwf as [Hwf Hc0]. apply Forall_inv in Hc0.
    destruct Hc0 as (Hip & Hwip & Hwh).
    rewrite map_app, foldl_app. simpl.
    rewrite read_record_lookup, split_ws_dns_record by done.
    fold (fqdn_of config c0). case_decide as Heq.
    + f_equal. apply Hsame; [|done]. apply elem_of_app. right.
      by apply list_elem_of_singleton.
    + apply IH; [done| |].
      * intros c' Hc'. apply Hsame, elem_of_app. by left.
      * apply elem_of_app in Hin as [Hin|Hin]; [done|].
        apply list_elem_of_singleton in Hin. by subst.
Qed.

(** A run converges through the store's own format: when the hosts array
    the Pi-hole returns ends with the records of the clients, as
    [add_dns_record] writes them, the loop skips every client and writes
    nothing.  This needs names and addresses free of whitespace,
    addresses that are not empty, and clients that share an fqdn to share
    the address. *)
Theorem sync_after_write_back
    (config : Config) (w : World) (dry_run : bool)
    (records : list str) (clients : list client) :
  ws_free (dns_domain config) ->
  Forall (fun c => ip c <> [] /\ ws_free (ip c) /\ ws_free (hostname c)) clients ->
  (forall c1 c2, c1 ∈ clients -> c2 ∈ clients ->
                 fqdn_of config c1 = fqdn_of config c2 -> ip c1 = ip c2) ->
  sync_loop config w dry_run
    (get_existing_records
       (Some (records
                ++ map (fun c => dns_record (dns_domain config) (hostname c) (ip c))
                     clients)))
    clients
  = SyncState (Counters 0 0 (length clients) 0) [].
Proof.
  intros Hdom Hwf Hsame. unfold sync_loop.
  rewrite sync_fold_all_skipped; [done|].
  apply Forall_forall. intros c Hc. apply reconcile_skipped.
  simpl. rewrite foldl_app. apply written_records_lookup; try done.
  intros c' Hc' Heq. by apply Hsame.
Qed.

Lemma count_cons (l x : label) (ls : list label) :
  count l (x :: ls) = ((if decide (x = l) then 1 else 0) + count l ls)%nat.
Proof. unfold count. rewrite filter_cons. by case_decide. Qed.

Lemma outcomes_real_counts config w current k clients :
  let outs := outcomes config w false current k clients in
  let todo := pending config current clients in
  count Failed outs = length (fails w k (length todo))
  /\ (count Added outs + count Updated outs + count Failed outs)%nat
     = length todo.
Proof.
  revert k. induction clients as [|c rest IH]; intros k; [done|].
  cbv zeta. simpl outcomes. unfold record_outcome.
  rewrite makes_call_real, pending_cons, !count_cons.
  destruct (IH k) as [IHf IHs]. destruct (IH (S k)) as [IHf' IHs'].
  pose proof (reconcile_not_failed config current c) as Hnf.
  destruct (decide (reconcile config current c = Skipped)) as [Hc|Hc].
  - rewrite bool_decide_false by (by intros ?). rewrite Hc.
    simpl. split; [exact IHf|exact IHs].
  - rewrite bool_decide_true by done. simpl length. rewrite fails_S.
    destruct (put_ok w k).
    + destruct (reconcile config current c); try done; simpl; lia.
    + simpl. lia.
Qed.

(** In a real run every call of [add_dns_record] is accounted for: the
    failed counter is the number of calls that returned [False], the
    calls are as many as the added, updated and failed records together,
    and the four counters add up to the number of clients. *)
Theorem sync_loop_accounting
    (config : Config) (w : World) (current : gmap str str)
    (clients : list client) :
  let st := sync_loop config w false current clients in
  let t := tally st in
  failed t = length (fails w 0 (length (puts st)))
  /\ length (puts st) = (added t + updated t + failed t)%nat
  /\ (added t + updated t + skipped t + failed t)%nat = length clients.
Proof.
  cbv zeta. rewrite sync_loop_outcomes. simpl.
  rewrite length_map.
  destruct (outcomes_real_counts config w current 0 clients) as [Hf Hs].
  pose proof (count_total (outcomes config w false current 0 clients)) as Ht.
  rewrite outcomes_length in Ht. cbv zeta in Hf, Hs. lia.
Qed.

Lemma outcomes_real_updated config w current k clients :
  (count Updated (outcomes config w false current k clients)
   <= count Updated (map (reconcile config current) clients))%nat.
Proof.
  revert k. induction clients as [|c rest IH]; intros k; [done|].
  simpl outcomes. simpl map. unfold record_outcome. rewrite !count_cons.
  pose proof (IH k). pose proof (IH (S k)).
  destruct (makes_call _ _); [destruct (put_ok w k)|];
    repeat case_decide; try done; lia.
Qed.

Lemma reconcile_empty config c : reconcile config ∅ c = Added.
Proof. unfold reconcile. by rewrite lookup_empty. Qed.

Lemma pending_empty config clients : pending config ∅ clients = clients.
Proof.
  unfold pending. induction clients as [|c rest IH]; [done|].
  rewrite filter_cons, decide_True, IH; [done|].
  by rewrite reconcile_empty.
Qed.

Lemma count_reconcile_empty config l clients :
  count l (map (reconcile config ∅) clients)
  = if decide (l = Added) then length clients else 0%nat.
Proof.
  induction clients as [|c rest IH]; simpl.
  - by case_decide.
  - rewrite count_cons, reconcile_empty, IH.
    repeat case_decide; simpl; congruence.
Qed.

(** When the existing records cannot be read, the dictionary is empty
    and a real run writes every client, in order, whatever the store
    holds: none is skipped or counted as updated.  A dry run counts
    every client as added. *)
Theorem sync_without_existing_records
    (config : Config) (w : World) (clients : list client) :
  let real := sync_loop config w false (get_existing_records None) clients in
  let dry := sync_loop config w true (get_existing_records None) clients in
  puts real = map (fun c => (hostname c, ip c)) clients
  /\ updated (tally real) = 0%nat
  /\ skipped (tally real) = 0%nat
  /\ (added (tally real) + failed (tally real))%nat = length clients
  /\ dry = SyncState (Counters (length clients) 0 0 0) [].
Proof.
  cbv zeta. simpl get_existing_records. rewrite !sync_loop_outcomes.
  rewrite pending_empty, outcomes_dry_run.
  cbn [tally puts]. unfold tally_add, no_counts.
  cbn [added updated skipped failed]. rewrite !count_reconcile_empty.
  destruct (outcomes_real_counts config w ∅ 0 clients) as [Hf Hs].
  pose proof (count_total (outcomes config w false ∅ 0 clients)) as Ht.
  rewrite outcomes_length in Ht. cbv zeta in Hf, Hs.
  rewrite pending_empty in Hs.
  assert (Hsk : count Skipped (outcomes config w false ∅ 0 clients) = 0%nat)
    by lia.
  assert (Hup : count Updated (outcomes config w false ∅ 0 clients) = 0%nat).
  { pose proof (outcomes_real_updated config w ∅ 0 clients) as Hle.
    rewrite count_reconcile_empty in Hle. simpl in Hle. lia. }
  repeat split; try done; simpl; lia.
Qed.

Section TraceFacts.

Variable unicode_lower : str -> N -> str -> str.

(** The Pi-hole sees nothing when there is no client to sync, only the
    authentication when that fails, and otherwise the authentication,
    the read of the existing records and, in a real run, one call of
    [add_dns_record] for each client whose fqdn is absent or has another
    address, in the order of the clients. *)
Theorem run_trace (config : Config) (w : World) (dry_run : bool) :
  let clients :=
    get_active_clients unicode_lower (allowed_subnets config) (unifi_data w) in
  trace (sync_dhcp_to_dns unicode_lower config w dry_run)
  = if bool_decide (clients = []) then []
    else if auth_ok w then
      [Authenticate; GetExistingRecords]
        ++ (if dry_run then []
            else map (fun c => AddDnsRecord (hostname c) (ip c))
                   (pending config (existing w) clients))
    else [Authenticate].
Proof.
  intros clients. case_bool_decide as Hc.
  - by rewrite sync_run_no_clients.
  - destruct (auth_ok w) eqn:Hauth.
    + rewrite (sync_run_reaches_loop unicode_lower config w dry_run clients)
        by done.
      cbn [trace]. f_equal. destruct dry_run; [done|].
      by rewrite map_map.
    + by rewrite sync_run_auth_fails.
Qed.

End TraceFacts.

Lemma occurrences_absent (name : str) (l : list client) :
  name ∉ map hostname l -> occurrences name l = 0%nat.
Proof.
  induction l as [|c l IH]; [done|]. simpl. intros Hn.
  apply not_elem_of_cons in Hn as [Hne Hn].
  rewrite occurrences_cons, IH by done. by rewrite decide_False.
Qed.

Lemma occurrences_NoDup (name : str) (l : list client) :
  NoDup (map hostname l) -> (occurrences name l <= 1)%nat.
Proof.
  induction l as [|c l IH]; [unfold occurrences; simpl; lia|].
  simpl. intros [Hc Hl]%NoDup_cons.
  rewrite occurrences_cons. case_decide as Heq.
  - subst. rewrite occurrences_absent by done. lia.
  - specialize (IH Hl). lia.
Qed.

(** The resolver never adds, drops or reorders an entry and never
    changes an address; on a list whose names are pairwise different it
    changes nothing at all. *)
Theorem handle_duplicates_addresses (client_list : list client) :
  map ip (_handle_duplicates client_list) = map ip client_list
  /\ (NoDup (map hostname client_list) ->
      _handle_duplicates client_list = client_list).
Proof.
  rewrite handle_duplicates_map. split.
  - rewrite map_map. apply map_ext. intros c. unfold resolve_entry.
    by case_decide.
  - intros Hnd. rewrite <- (map_id client_list) at 3.
    apply map_ext. intros c. unfold resolve_entry.
    pose proof (occurrences_NoDup (hostname c) client_list Hnd).
    rewrite decide_False by lia. done.
Qed.

(** ** More on the client filter *)

Lemma startswith_prefix (s p : str) : startswith s p = true <-> p `prefix_of` s.
Proof.
  revert s. induction p as [|c p IH]; intros s.
  - split; [intros _; apply prefix_nil | by destruct s].
  - destruct s as [|d s]; simpl.
    + split; [done|]. intros [k Hk]. discriminate Hk.
    + rewrite andb_true_iff, N.eqb_eq, IH. split.
      * intros [-> Hp]. by apply prefix_cons.
      * intros [k Hk]. simpl in Hk. injection Hk as -> ->.
        split; [done|]. by exists k.
Qed.

Section FilterFacts.

Variable unicode_lower : str -> N -> str -> str.

Lemma collect_client_kept allowed acc s :
  collect_client unicode_lower allowed acc s
  = if kept allowed s
    then acc ++ [Client (default [] (sta_ip s))
                   (_sanitize_hostname unicode_lower
                      (default [] (py_or (sta_hostname s) (sta_name s))))]
    else acc.
Proof.
  unfold collect_client, kept.
  destruct (sta_ip s) as [[|a address]|]; try done.
  destruct (py_or _ _) as [[|b raw]|]; try done. simpl.
  by destruct (bool_decide _), (existsb _ _).
Qed.

Lemma collect_foldl_kept allowed stations acc :
  foldl (collect_client unicode_lower allowed) acc stations
  = acc ++ map (fun s => Client (default [] (sta_ip s))
                  (_sanitize_hostname unicode_lower
                     (default [] (py_or (sta_hostname s) (sta_name s)))))
             (filter (fun s => kept allowed s = true) stations).
Proof.
  revert acc. induction stations as [|s stations IH]; intros acc; simpl.
  - by rewrite app_nil_r.
  - rewrite IH, collect_client_kept, filter_cons.
    case_decide as Hk; [rewrite Hk | rewrite (not_true_is_false _ Hk)].
    + simpl. by rewrite <- app_assoc.
    + done.
Qed.

Lemma kept_address allowed s :
  kept allowed s = true ->
  default [] (sta_ip s) <> []
  /\ (allowed = []
      \/ exists subnet, subnet ∈ allowed
                        /\ subnet `prefix_of` default [] (sta_ip s)).
Proof.
  unfold kept. intros [[Hip _]%andb_prop Hal]%andb_prop. split.
  - by destruct (sta_ip s) as [[|? ?]|].
  - apply orb_prop in Hal as [Hal|Hal].
    + left. by apply bool_decide_eq_true in Hal.
    + right. apply existsb_exists in Hal as (subnet & Hin & Hs).
      exists subnet. split; [by apply list_elem_of_In|].
      by apply startswith_prefix.
Qed.

(** [get_active_clients] returns one client for each station that has
    an address, a hostname or a name and, when subnets are configured,
    an address that starts with one of them as text; the addresses come
    out unchanged and in the order of the stations.  A failed request
    gives no client. *)
Theorem active_clients_addresses (allowed : list str) (stations : list station) :
  let clients := get_active_clients unicode_lower allowed (Some stations) in
  map ip clients
  = map (fun s => default [] (sta_ip s))
      (filter (fun s => kept allowed s = true) stations)
  /\ Forall (fun c => ip c <> []
                      /\ (allowed = []
                          \/ exists subnet, subnet ∈ allowed
                                            /\ subnet `prefix_of` ip c))
       clients
  /\ get_active_clients unicode_lower allowed None = [].
Proof.
  cbv zeta. unfold get_active_clients.
  rewrite collect_foldl_kept. simpl app.
  set (client_list := map _ (filter _ stations)).
  assert (Hips : map ip (_handle_duplicates client_list)
                 = map (fun s => default [] (sta_ip s))
                     (filter (fun s => kept allowed s = true) stations)).
  { rewrite handle_duplicates_map, map_map.
    subst client_list. rewrite map_map. apply map_ext_in.
    intros s _. unfold resolve_entry. by case_decide. }
  split; [exact Hips|]. split; [|done].
  apply Forall_forall. intros c Hc.
  assert (Hip : ip c ∈ map ip (_handle_duplicates client_list))
    by (apply list_elem_of_In, in_map, list_elem_of_In, Hc).
  rewrite Hips in Hip.
  apply list_elem_of_In, in_map_iff in Hip as (s & <- & Hs).
  apply list_elem_of_In, list_elem_of_filter in Hs as [Hk _].
  by apply kept_address.
Qed.

(** The names [get_active_clients] hands to the sync are made of the
    sanitizer's characters alone, except for what the last segment of
    the address brings into a renamed duplicate: a client whose address
    ends in a segment of letters, digits, hyphens and dots has a name of
    such characters. *)
Theorem active_clients_names
    (allowed : list str) (response : option (list station)) (c : client) :
  c ∈ get_active_clients unicode_lower allowed response ->
  Forall (fun x => x ∈ dns_alphabet) (last_octet (ip c)) ->
  Forall (fun x => x ∈ dns_alphabet) (hostname c).
Proof.
  destruct response as [stations|]; [|by intros ?%elem_of_nil].
  unfold get_active_clients. rewrite collect_foldl_kept. simpl app.
  set (client_list := map _ (filter _ stations)). rewrite handle_duplicates_map.
  intros (c0 & <- & Hc0)%list_elem_of_In%in_map_iff Hoct.
  assert (Hname : Forall (fun x => x ∈ dns_alphabet) (hostname c0)).
  { subst client_list. apply in_map_iff in Hc0 as (s & <- & _). simpl.
    eapply Forall_impl; [apply sanitize_dns_chars|].
    intros x. apply dns_char_alphabet. }
  unfold resolve_entry in *. case_decide; [|done]. cbn [hostname ip] in *.
  apply Forall_app. split; [done|]. apply Forall_app. split; [|done].
  constructor; [by apply dns_char_alphabet | constructor].
Qed.

End FilterFacts.

(** ** The configuration and [main] *)

Lemma lstrip_suffix (s : str) :
  exists blank, s = blank ++ lstrip s /\ Forall (fun c => isspace c = true) blank.
Proof.
  induction s as [|c s (blank & Hs & Hb)]; [by exists []|]. simpl.
  destruct (isspace c) eqn:Hc.
  - exists (c :: blank). split; [by rewrite Hs at 1 | by constructor].
  - by exists [].
Qed.

Lemma lstrip_head (s : str) (c : N) : head (lstrip s) = Some c -> isspace c = false.
Proof.
  induction s as [|d s IH]; [done|]. simpl.
  destruct (isspace d) eqn:Hd; [done|]. by intros [= <-].
Qed.

Lemma lstrip_nil (s : str) : lstrip s = [] <-> Forall (fun c => isspace c = true) s.
Proof.
  induction s as [|c s IH]; [done|]. simpl.
  destruct (isspace c) eqn:Hc.
  - rewrite IH. split; [by constructor | by intros [_ ?]%Forall_cons].
  - split; [done|]. intros [? _]%Forall_cons. congruence.
Qed.

Lemma rstrip_prefix (s : str) :
  exists blank, s = rstrip s ++ blank /\ Forall (fun c => isspace c = true) blank.
Proof.
  unfold rstrip. destruct (lstrip_suffix (reverse s)) as (blank & Hs & Hb).
  exists (reverse blank). split; [|by apply Forall_reverse].
  by rewrite <- reverse_app, <- Hs, reverse_involutive.
Qed.

Lemma rstrip_last (s : str) (c : N) : last (rstrip s) = Some c -> isspace c = false.
Proof. unfold rstrip. rewrite last_reverse. apply lstrip_head. Qed.

Lemma rstrip_nil (s : str) : rstrip s = [] <-> Forall (fun c => isspace c = true) s.
Proof.
  unfold rstrip. rewrite <- (reverse_involutive s) at 2.
  rewrite Forall_reverse. rewrite <- lstrip_nil. split.
  - intros H. apply (f_equal reverse) in H. by rewrite reverse_involutive in H.
  - by intros ->.
Qed.

(** [s.strip()] cuts whitespace, and nothing else, off both ends. *)
Lemma strip_spec (s : str) :
  exists left right,
    s = left ++ strip s ++ right
    /\ Forall (fun c => isspace c = true) left
    /\ Forall (fun c => isspace c = true) right
    /\ (forall c, head (strip s) = Some c -> isspace c = false)
    /\ (forall c, last (strip s) = Some c -> isspace c = false).
Proof.
  unfold strip.
  destruct (lstrip_suffix s) as (left & Hs & Hl).
  destruct (rstrip_prefix (lstrip s)) as (right & Ht & Hr).
  exists left, right. split; [by rewrite <- Ht|]. do 2 (split; [done|]).
  split; [|apply rstrip_last].
  intros c Hc. apply (lstrip_head s).
  rewrite Ht. by destruct (rstrip (lstrip s)).
Qed.

Lemma strip_nil (s : str) : strip s = [] <-> Forall (fun c => isspace c = true) s.
Proof.
  unfold strip. rewrite rstrip_nil.
  destruct (lstrip_suffix s) as (blank & Hs & Hb). split.
  - intros H. rewrite Hs. by apply Forall_app.
  - intros H. rewrite Hs in H. by apply Forall_app in H as [_ ?].
Qed.

Lemma split_segments (sep : N) (s : str) (seg : str) :
  seg ∈ split sep s -> (sep ∉ seg) /\ (forall c, c ∈ seg -> c ∈ s).
Proof.
  destruct (split_join sep s) as (init & last_seg & -> & Hno & Hj).
  intros Hin. split; [by eapply Forall_forall in Hno|].
  intros c Hc. rewrite Hj.
  apply elem_of_app in Hin as [Hin|Hin%list_elem_of_singleton].
  - apply elem_of_app. left. apply list_elem_of_In, in_concat.
    exists (seg ++ [sep]). split.
    + apply in_map_iff. exists seg. split; [done|]. by apply list_elem_of_In.
    + apply list_elem_of_In, elem_of_app. by left.
  - subst. apply elem_of_app. by right.
Qed.

Lemma split_covers (sep : N) (s : str) (c : N) :
  c ∈ s -> c = sep \/ exists seg, seg ∈ split sep s /\ c ∈ seg.
Proof.
  destruct (split_join sep s) as (init & last_seg & -> & _ & Hj).
  rewrite Hj at 1. intros [Hc|Hc]%elem_of_app.
  - apply list_elem_of_In, in_concat in Hc as (x & Hx & Hc).
    apply in_map_iff in Hx as (seg & <- & Hseg).
    apply list_elem_of_In, elem_of_app in Hc as [Hc|Hc%list_elem_of_singleton].
    + right. exists seg. split; [|done].
      apply elem_of_app. left. by apply list_elem_of_In.
    + by left.
  - right. exists last_seg. split; [|done].
    apply elem_of_app. right. by apply list_elem_of_singleton.
Qed.

(** Every entry of [allowed_subnets] is a piece of [ALLOWED_SUBNETS]
    between commas with the whitespace around it cut off: it is not
    empty, holds no comma and neither starts nor ends with whitespace.
    The list is empty, which turns the subnet filter off, exactly when
    the variable holds nothing but commas and whitespace. *)
Theorem parse_allowed_subnets_entries (allowed_subnets_str : str) :
  Forall (fun subnet =>
            subnet <> []
            /\ (chr_comma ∉ subnet)
            /\ (forall c, head subnet = Some c -> isspace c = false)
            /\ (forall c, last subnet = Some c -> isspace c = false))
    (parse_allowed_subnets allowed_subnets_str)
  /\ (parse_allowed_subnets allowed_subnets_str = []
      <-> Forall (fun c => c = chr_comma \/ isspace c = true)
            allowed_subnets_str).
Proof.
  unfold parse_allowed_subnets. split.
  - apply Forall_forall. intros subnet Hin.
    apply list_elem_of_In, in_map_iff in Hin as (seg & <- & Hseg).
    apply list_elem_of_In, list_elem_of_filter in Hseg as [Hne Hseg].
    destruct (strip_spec seg) as (l & r & Hs & _ & _ & Hh & Hl).
    split; [done|]. split; [|by split].
    intros Hc. apply (split_segments _ _ _ Hseg).
    rewrite Hs. apply elem_of_app. right. apply elem_of_app. by left.
  - split.
    + intros Hnil. apply Forall_forall. intros c Hc.
      destruct (split_covers chr_comma _ c Hc) as [->|(seg & Hseg & Hcs)];
        [by left|right].
      destruct (decide (strip seg = [])) as [Hs|Hs].
      * apply strip_nil in Hs. by eapply Forall_forall in Hs.
      * assert (seg ∈ filter (fun s => strip s <> [])
                        (split chr_comma allowed_subnets_str)) as Hf
          by (by apply list_elem_of_filter).
        apply (list_elem_of_fmap_2 strip) in Hf.
        change (strip <$> ?l) with (map strip l) in Hf.
        rewrite Hnil in Hf. by apply elem_of_nil in Hf.
    + intros Hall.
      destruct (filter _ (split chr_comma allowed_subnets_str))
        as [|seg others] eqn:Hf; [done|exfalso].
      assert (seg ∈ filter (fun s => strip s <> [])
                      (split chr_comma allowed_subnets_str)) as Hin
        by (rewrite Hf; left).
      apply list_elem_of_filter in Hin as [Hne Hseg]. apply Hne.
      apply strip_nil, Forall_forall. intros c Hc.
      destruct (split_segments _ _ _ Hseg) as [Hno Hsub].
      pose proof (proj1 (Forall_forall _ _) Hall c (Hsub c Hc)) as [->|?];
        done.
Qed.

Lemma missing_unset (env : Env) : missing (Config_load env) = unset_keys env.
Proof.
  unfold missing, unset_keys, required, required_keys. simpl.
  rewrite !filter_cons, filter_nil. simpl.
  repeat case_decide; reflexivity.
Qed.

(** [Config] is built exactly when the five required variables are set
    and not empty.  Otherwise it raises, and the message lists the ones
    that are not, in the order of the check.  A configuration that was
    built has a DNS domain that is not empty. *)
Theorem Config_init_required (env : Env) :
  Config_init env
  = (if bool_decide (unset_keys env = []) then inr (Config_load env)
     else inl (cp "Missing required configuration: "
                 ++ join (cp ", ") (map cp (unset_keys env))))
  /\ (unset_keys env = [] ->
      env "DNS_DOMAIN"%string
      = Some (dns_domain (sync_config (Config_load env)))
      /\ dns_domain (sync_config (Config_load env)) <> []).
Proof.
  split.
  - unfold Config_init, validate. rewrite missing_unset.
    by case_bool_decide.
  - unfold unset_keys, required_keys. rewrite !filter_cons, filter_nil.
    intros Hnil. simpl.
    destruct (env "DNS_DOMAIN"%string) as [[|? ?]|]; simpl in *;
      repeat case_decide; try done.
Qed.

Section RunSuccess.

Variable unicode_lower : str -> N -> str -> str.

Lemma run_success (config : Config) (w : World) (dry_run : bool) :
  let clients :=
    get_active_clients unicode_lower (allowed_subnets config) (unifi_data w) in
  success (sync_dhcp_to_dns unicode_lower config w dry_run) = true
  <-> clients = []
      \/ (auth_ok w = true
          /\ (dry_run = true
              \/ fails w 0 (length (pending config (existing w) clients)) = [])).
Proof.
  intros clients. destruct (decide (clients = [])) as [Hnil|Hne].
  { rewrite sync_run_no_clients by done. split; [by left | done]. }
  destruct (auth_ok w) eqn:Hauth.
  - rewrite (sync_run_reaches_loop unicode_lower config w dry_run clients)
      by done.
    cbn [success]. rewrite bool_decide_eq_true.
    unfold tally_add, no_counts. cbn [failed]. destruct dry_run.
    + rewrite outcomes_dry_run, count_failed_reconcile. split; [|done].
      intros _. right. split; [done|by left].
    + destruct (outcomes_real_counts config w (existing w) 0 clients)
        as [Hf _]. cbv zeta in Hf. rewrite Hf. simpl. split.
      * intros Hlen. right. split; [done|]. right.
        by destruct (fails w 0 _).
      * intros [?|[_ [?|Hnone]]]; [done..|]. by rewrite Hnone.
  - rewrite sync_run_auth_fails by done. cbn [success].
    split; [done|]. intros [?|[? _]]; done.
Qed.

(** A run returns [True] exactly when there is no client to sync, or the
    authentication succeeds and, in a real run, none of the calls of
    [add_dns_record] it makes returns [False]. *)
Theorem run_success_iff (config : Config) (w : World) (dry_run : bool) :
  let clients :=
    get_active_clients unicode_lower (allowed_subnets config) (unifi_data w) in
  success (sync_dhcp_to_dns unicode_lower config w dry_run) = true
  <-> clients = []
      \/ (auth_ok w = true
          /\ (dry_run = true
              \/ fails w 0 (length (pending config (existing w) clients)) = [])).
Proof. apply run_success. Qed.

Variable set_level : str -> level_outcome.


End RunSuccess.

(** ** The URL of a record *)

(** Division and remainder by a constant, for [lia]. *)
Ltac Zify.zify_post_hook ::= Z.to_euclidean_division_equations.

Lemma utf8_encode_char_bytes (c : N) (bs : list N) :
  utf8_encode_char c = Some bs -> bs <> [] /\ Forall (fun b => b < 256) bs.
Proof.
  unfold utf8_encode_char, in_range.
  repeat match goal with
         | |- context [?a <? ?b] => destruct (N.ltb_spec a b)
         | |- context [?a <=? ?b] => destruct (N.leb_spec a b)
         end; simpl; intros [= <-]; (split; [done|]);
    repeat first [apply Forall_nil_2 | apply Forall_cons_2]; lia.
Qed.

Ltac Zify.zify_post_hook ::= idtac.

Lemma utf8_encode_bytes (s : str) (bs : list N) :
  utf8_encode s = Some bs -> Forall (fun b => b < 256) bs.
Proof.
  revert bs. induction s as [|c s IH]; simpl; intros bs.
  - by intros [= <-].
  - destruct (utf8_encode_char c) as [b1|] eqn:Hc; [|done].
    destruct (utf8_encode s) as [b2|]; [|done]. intros [= <-].
    apply Forall_app. split; [by eapply utf8_encode_char_bytes | by apply IH].
Qed.

Lemma utf8_encode_app (s1 s2 : str) :
  utf8_encode (s1 ++ s2)
  = match utf8_encode s1, utf8_encode s2 with
    | Some b1, Some b2 => Some (b1 ++ b2)
    | _, _ => None
    end.
Proof.
  induction s1 as [|c s1 IH]; simpl.
  - by destruct (utf8_encode s2).
  - rewrite IH. destruct (utf8_encode_char c), (utf8_encode s1),
      (utf8_encode s2); try done. by rewrite app_assoc.
Qed.

Lemma utf8_encode_ascii (s : str) :
  Forall (fun c => c < 128) s -> utf8_encode s = Some s.
Proof.
  induction 1 as [|c s Hc _ IH]; [done|]. simpl.
  unfold utf8_encode_char. destruct (N.ltb_spec c 128); [|lia].
  by rewrite IH.
Qed.

Lemma existsb_elem (c : N) (l : str) : existsb (N.eqb c) l = true -> c ∈ l.
Proof.
  intros (d & Hd & ->%N.eqb_eq)%existsb_exists. by apply list_elem_of_In.
Qed.

Section QuoteFacts.

Variable tilde_safe : bool.

Lemma quote_safe_ascii (b : N) : quote_safe tilde_safe b = true -> b < 128.
Proof.
  unfold quote_safe, in_range. intros Hb.
  repeat (apply orb_prop in Hb as [Hb|Hb]);
    repeat (apply andb_prop in Hb as [? Hb]);
    try apply N.leb_le in Hb; try apply N.eqb_eq in Hb; lia.
Qed.

Lemma quote_safe_url (b : N) :
  quote_safe tilde_safe b = true -> b ∈ url_alphabet.
Proof.
  intros Hb. pose proof (quote_safe_ascii b Hb) as Hlt.
  assert (Hall : forallb
            (fun n => implb (quote_safe true (N.of_nat n))
                        (existsb (N.eqb (N.of_nat n)) url_alphabet))
            (seq 0 128) = true) by (vm_compute; reflexivity).
  rewrite forallb_forall in Hall.
  specialize (Hall (N.to_nat b) ltac:(apply in_seq; lia)).
  rewrite N2Nat.id in Hall.
  assert (Ht : quote_safe true b = true).
  { unfold quote_safe in *. destruct tilde_safe; [done|].
    simpl in *. repeat (apply orb_prop in Hb as [Hb|Hb]);
      rewrite ?Hb, ?orb_true_r; done. }
  rewrite Ht in Hall.
  apply existsb_exists in Hall as (d & Hd & ->%N.eqb_eq).
  by apply list_elem_of_In.
Qed.

Lemma hex_digit_url (n : N) : n < 16 -> hex_digit n ∈ url_alphabet.
Proof.
  intros Hn.
  assert (Hall : forallb
            (fun k => existsb (N.eqb (hex_digit (N.of_nat k))) url_alphabet)
            (seq 0 16) = true) by (vm_compute; reflexivity).
  rewrite forallb_forall in Hall.
  specialize (Hall (N.to_nat n) ltac:(apply in_seq; lia)).
  rewrite N2Nat.id in Hall.
  apply existsb_exists in Hall as (d & Hd & ->%N.eqb_eq).
  by apply list_elem_of_In.
Qed.

Lemma quote_byte_url (b : N) :
  b < 256 -> Forall (fun c => c ∈ url_alphabet) (quote_byte tilde_safe b).
Proof.
  intros Hb. unfold quote_byte.
  destruct (quote_safe tilde_safe b) eqn:Hs.
  - constructor; [by apply quote_safe_url | constructor].
  - constructor; [by apply existsb_elem|].
    constructor; [apply hex_digit_url; apply N.Div0.div_lt_upper_bound; lia|].
    constructor; [apply hex_digit_url; apply N.mod_lt; lia|constructor].
Qed.

Lemma quote_url_chars (s q : str) :
  quote tilde_safe s = Some q -> Forall (fun c => c ∈ url_alphabet) q.
Proof.
  unfold quote. destruct (utf8_encode s) as [bs|] eqn:Hs; [|done].
  intros [= <-]. apply utf8_encode_bytes in Hs.
  induction Hs as [|b bs Hb _ IH]; [constructor|]. simpl.
  apply Forall_app. split; [by apply quote_byte_url | done].
Qed.

(** Whatever the address, the name and the domain hold, the URL of the
    PUT is the hosts path followed by a text of letters, digits,
    [_.-~], slashes and percent signs alone: the record brings in no
    space and no character that would end the path. *)
Theorem add_dns_record_url_chars (host pihole_domain domain ip url : str) :
  add_dns_record_url tilde_safe host pihole_domain domain ip = Some url ->
  exists encoded_record,
    url = cp "http://" ++ host ++ cp "/api/config/dns/hosts/" ++ encoded_record
    /\ Forall (fun c => c ∈ url_alphabet) encoded_record.
Proof.
  unfold add_dns_record_url.
  destruct (quote _ _) as [q|] eqn:Hq; [|done]. intros [= <-].
  exists q. split; [done|]. by eapply quote_url_chars.
Qed.

Lemma plain_char_safe (c : N) :
  plain_char c = true -> quote_safe tilde_safe c = true.
Proof.
  unfold plain_char, quote_safe. simpl. intros Hc.
  repeat (apply orb_prop in Hc as [Hc|Hc]); rewrite ?Hc, ?orb_true_r; done.
Qed.

Lemma flat_map_quote_plain (s : str) :
  Forall (fun c => plain_char c = true) s ->
  flat_map (quote_byte tilde_safe) s = s.
Proof.
  induction 1 as [|c s Hc _ IH]; [done|]. simpl.
  unfold quote_byte at 1. rewrite plain_char_safe by done. simpl.
  by rewrite IH.
Qed.

Lemma plain_ascii (s : str) :
  Forall (fun c => plain_char c = true) s -> Forall (fun c => c < 128) s.
Proof.
  intros Hs. eapply Forall_impl; [exact Hs|]. intros c Hc.
  apply quote_safe_ascii. by apply plain_char_safe.
Qed.

(** For an address and names made of letters, digits, [_.-] and slashes
    the PUT goes to the hosts path followed by the address, [%20], the
    name, a dot and the domain. *)
Theorem add_dns_record_url_plain (host pihole_domain domain ip : str) :
  Forall (fun c => plain_char c = true) ip ->
  Forall (fun c => plain_char c = true) domain ->
  Forall (fun c => plain_char c = true) pihole_domain ->
  add_dns_record_url tilde_safe host pihole_domain domain ip
  = Some (cp "http://" ++ host ++ cp "/api/config/dns/hosts/"
            ++ ip ++ cp "%20" ++ domain ++ cp "." ++ pihole_domain).
Proof.
  intros Hip Hd Hp. unfold add_dns_record_url, quote, dns_record.
  assert (Hfqdn : Forall (fun c => plain_char c = true)
                    (domain ++ [chr_dot] ++ pihole_domain)).
  { apply Forall_app. split; [done|]. apply Forall_app. split; [|done].
    by repeat constructor. }
  rewrite utf8_encode_app, (utf8_encode_ascii ip) by by apply plain_ascii.
  rewrite utf8_encode_app. simpl (utf8_encode [chr_space]).
  rewrite utf8_encode_ascii by by apply plain_ascii.
  rewrite !flat_map_app.
  rewrite (flat_map_quote_plain ip), (flat_map_quote_plain domain),
    (flat_map_quote_plain pihole_domain) by done.
  by destruct tilde_safe.
Qed.

End QuoteFacts.

Ltac Zify.zify_post_hook ::= Z.to_euclidean_division_equations.

Lemma utf8_encode_char_prefix_free (c1 c2 : N) (b1 b2 e1 e2 : list N) :
  utf8_encode_char c1 = Some b1 ->
  utf8_encode_char c2 = Some b2 ->
  b1 ++ e1 = b2 ++ e2 ->
  c1 = c2.
Proof.
  unfold utf8_encode_char, in_range.
  repeat match goal with
         | |- context [?a <? ?b] => destruct (N.ltb_spec a b)
         | |- context [?a <=? ?b] => destruct (N.leb_spec a b)
         end; simpl; try done; intros [= <-] [= <-]; simpl;
    intros Heq; simplify_eq; lia.
Qed.

Lemma hex_digit_inj (m n : N) :
  m < 16 -> n < 16 -> hex_digit m = hex_digit n -> m = n.
Proof.
  unfold hex_digit. intros Hm Hn.
  destruct (N.ltb_spec m 10), (N.ltb_spec n 10); lia.
Qed.

Lemma byte_nibbles (a b : N) :
  a < 256 -> b < 256 -> a / 16 = b / 16 -> a mod 16 = b mod 16 -> a = b.
Proof. lia. Qed.

Lemma byte_nibble_bounds (a : N) : a < 256 -> a / 16 < 16 /\ a mod 16 < 16.
Proof. lia. Qed.

Ltac Zify.zify_post_hook ::= idtac.

Lemma utf8_encode_inj (s1 s2 : str) (bs : list N) :
  utf8_encode s1 = Some bs -> utf8_encode s2 = Some bs -> s1 = s2.
Proof.
  revert s2 bs. induction s1 as [|c1 s1 IH]; intros [|c2 s2] bs; simpl.
  - done.
  - intros [= <-]. destruct (utf8_encode_char c2) as [b2|] eqn:H2; [|done].
    destruct (utf8_encode s2); [|done]. intros [= Hnil].
    apply utf8_encode_char_bytes in H2 as [Hne _]. by destruct b2.
  - destruct (utf8_encode_char c1) as [b1|] eqn:H1; [|done].
    destruct (utf8_encode s1); [|done]. intros [= <-] [= Hnil].
    apply utf8_encode_char_bytes in H1 as [Hne _]. by destruct b1.
  - destruct (utf8_encode_char c1) as [b1|] eqn:H1; [|done].
    destruct (utf8_encode s1) as [e1|] eqn:He1; [|done].
    destruct (utf8_encode_char c2) as [b2|] eqn:H2; [|done].
    destruct (utf8_encode s2) as [e2|] eqn:He2; [|done].
    intros [= <-] [= Heq].
    assert (c1 = c2) as -> by (by eapply utf8_encode_char_prefix_free).
    rewrite H1 in H2. injection H2 as ->.
    apply app_inv_head in Heq as ->. f_equal. by eapply IH.
Qed.

Section QuoteInjective.

Variable tilde_safe : bool.

Lemma quote_safe_not_percent : quote_safe tilde_safe 37 = false.
Proof. by destruct tilde_safe. Qed.

Lemma quote_bytes_inj (bs1 bs2 : list N) :
  Forall (fun b => b < 256) bs1 ->
  Forall (fun b => b < 256) bs2 ->
  flat_map (quote_byte tilde_safe) bs1 = flat_map (quote_byte tilde_safe) bs2 ->
  bs1 = bs2.
Proof.
  intros H1. revert bs2.
  induction H1 as [|b1 bs1 Hb1 _ IH]; intros bs2 H2 Heq.
  - destruct H2 as [|b2 bs2 _ _]; [done|]. simpl in Heq.
    unfold quote_byte in Heq. by destruct (quote_safe tilde_safe b2).
  - destruct H2 as [|b2 bs2 Hb2 H2]; simpl in Heq.
    { unfold quote_byte in Heq. by destruct (quote_safe tilde_safe b1). }
    unfold quote_byte in Heq.
    destruct (quote_safe tilde_safe b1) eqn:Hs1,
             (quote_safe tilde_safe b2) eqn:Hs2; simpl in Heq.
    + injection Heq as -> Heq. f_equal. by apply IH.
    + injection Heq as -> _. by rewrite quote_safe_not_percent in Hs1.
    + injection Heq as <- _. by rewrite quote_safe_not_percent in Hs2.
    + injection Heq as Hhi Hlo Heq.
      destruct (byte_nibble_bounds b1 Hb1), (byte_nibble_bounds b2 Hb2).
      apply hex_digit_inj in Hhi, Hlo; try done.
      f_equal; [by apply byte_nibbles | by apply IH].
Qed.

Lemma quote_inj (s1 s2 q : str) :
  quote tilde_safe s1 = Some q -> quote tilde_safe s2 = Some q -> s1 = s2.
Proof.
  unfold quote.
  destruct (utf8_encode s1) as [b1|] eqn:H1; [|done].
  destruct (utf8_encode s2) as [b2|] eqn:H2; [|done].
  intros [= <-] [= Heq].
  apply quote_bytes_inj in Heq; [|by eapply utf8_encode_bytes..].
  subst. by eapply utf8_encode_inj.
Qed.

(** Two calls of [add_dns_record] on the same Pi-hole that PUT to the
    same URL carry the same record text: different records never share
    a URL. *)
Theorem add_dns_record_url_injective
    (host domain1 domain2 name1 name2 ip1 ip2 url : str) :
  add_dns_record_url tilde_safe host domain1 name1 ip1 = Some url ->
  add_dns_record_url tilde_safe host domain2 name2 ip2 = Some url ->
  dns_record domain1 name1 ip1 = dns_record domain2 name2 ip2.
Proof.
  unfold add_dns_record_url.
  destruct (quote _ (dns_record domain1 name1 ip1)) as [q1|] eqn:H1; [|done].
  destruct (quote _ (dns_record domain2 name2 ip2)) as [q2|] eqn:H2; [|done].
  intros Hu1 Hu2. rewrite <- Hu2 in Hu1. apply (inj Some) in Hu1.
  do 3 apply app_inv_head in Hu1. subst q2.
  by eapply quote_inj.
Qed.

End QuoteInjective.

(** ** The sanitizer on ASCII names *)

Lemma sanitize_one_char (c : N) :
  c < 128 ->
  re_sub_class class_not_dns
    (re_sub_class class_apostrophes
       (replace_char chr_space chr_hyphen [ascii_lower c]))
  = if dns_char (fold_char c) then [fold_char c] else [].
Proof.
  intros Hc.
  assert (Hall : forallb
            (fun n =>
               bool_decide
                 (re_sub_class class_not_dns
                    (re_sub_class class_apostrophes
                       (replace_char chr_space chr_hyphen
                          [ascii_lower (N.of_nat n)]))
                  = if dns_char (fold_char (N.of_nat n))
                    then [fold_char (N.of_nat n)] else []))
            (seq 0 128) = true) by (vm_compute; reflexivity).
  rewrite forallb_forall in Hall.
  specialize (Hall (N.to_nat c) ltac:(apply in_seq; lia)).
  rewrite N2Nat.id in Hall. by apply bool_decide_eq_true in Hall.
Qed.

Lemma re_sub_class_app cls (s1 s2 : str) :
  re_sub_class cls (s1 ++ s2) = re_sub_class cls s1 ++ re_sub_class cls s2.
Proof. unfold re_sub_class. apply filter_app. Qed.

Lemma replace_char_app old new (s1 s2 : str) :
  replace_char old new (s1 ++ s2)
  = replace_char old new s1 ++ replace_char old new s2.
Proof. unfold replace_char. apply map_app. Qed.

Section SanitizerAscii.

Variable unicode_lower : str -> N -> str -> str.

Lemma lower_from_ascii (before s : str) :
  Forall (fun c => c < 128) s ->
  lower_from unicode_lower before s = map ascii_lower s.
Proof.
  intros Hs. revert before.
  induction Hs as [|c s Hc _ IH]; intros before; [done|]. simpl.
  destruct (N.ltb_spec c 128); [|lia]. simpl. by rewrite IH.
Qed.

(** On a name of ASCII characters the sanitizer works one character at a
    time, whatever the interpreter's Unicode tables: it turns spaces
    into hyphens and capital letters into small ones and keeps, of the
    result, the letters, digits, hyphens and dots.  The name it returns
    is never longer than the one it is given. *)
Theorem sanitize_ascii (x : str) :
  Forall (fun c => c < 128) x ->
  _sanitize_hostname unicode_lower x
  = filter (fun c => dns_char c = true) (map fold_char x)
  /\ (length (_sanitize_hostname unicode_lower x) <= length x)%nat.
Proof.
  intros Hx.
  assert (Heq : _sanitize_hostname unicode_lower x
                = filter (fun c => dns_char c = true) (map fold_char x)).
  { unfold _sanitize_hostname, lower. rewrite lower_from_ascii by done.
    induction Hx as [|c x Hc _ IH]; [done|].
    change (map ascii_lower (c :: x))
      with ([ascii_lower c] ++ map ascii_lower x).
    rewrite replace_char_app, !re_sub_class_app, IH, sanitize_one_char by done.
    simpl map. rewrite filter_cons.
    destruct (dns_char (fold_char c)) eqn:Hd.
    - by rewrite decide_True.
    - by rewrite decide_False. }
  split; [exact Heq|]. rewrite Heq.
  etrans; [apply length_filter|]. by rewrite length_map.
Qed.

End SanitizerAscii.

(** ** What [quote] cannot encode *)

Lemma utf8_encode_char_none (c : N) :
  utf8_encode_char c = None <-> unencodable c.
Proof.
  unfold utf8_encode_char, in_range, unencodable.
  repeat match goal with
         | |- context [?a <? ?b] => destruct (N.ltb_spec a b)
         | |- context [?a <=? ?b] => destruct (N.leb_spec a b)
         end; simpl; split; try done; lia.
Qed.

Lemma utf8_encode_none (s : str) :
  utf8_encode s = None <-> Exists unencodable s.
Proof.
  induction s as [|c s IH]; simpl.
  - split; [done|]. by intros ?%Exists_nil.
  - rewrite Exists_cons, <- IH, <- utf8_encode_char_none.
    destruct (utf8_encode_char c), (utf8_encode s); split; try done; auto.
    + by intros [?|?].
Qed.

(** [add_dns_record] fails before it sends anything exactly when the
    address, the name or the domain holds a character [quote] cannot
    encode, which for a Python string means a lone surrogate. *)
Theorem add_dns_record_url_none
    (tilde_safe : bool) (host pihole_domain domain ip : str) :
  add_dns_record_url tilde_safe host pihole_domain domain ip = None
  <-> Exists unencodable (ip ++ domain ++ pihole_domain).
Proof.
  unfold add_dns_record_url, quote, dns_record.
  destruct (utf8_encode _) as [bs|] eqn:He.
  - split; [done|]. intros Hex. exfalso.
    assert (Hnone : utf8_encode (ip ++ [chr_space] ++ domain ++ [chr_dot]
                                   ++ pihole_domain) = None).
    { apply utf8_encode_none. rewrite !Exists_app in *.
      tauto. }
    congruence.
  - split; [|done]. intros _. apply utf8_encode_none in He.
    rewrite !Exists_app in *.
    destruct He as [?|[He|[?|[He|?]]]]; auto.
    + apply Exists_cons in He as [He|He%Exists_nil]; [|done].
      unfold unencodable, chr_space in He. lia.
    + apply Exists_cons in He as [He|He%Exists_nil]; [|done].
      unfold unencodable, chr_dot in He. lia.
Qed.

(** ** More concrete runs *)

(** Decides a closed statement by computation. *)
Ltac by_decide :=
  unfold ws_free; refine (bool_decide_unpack _ _); vm_compute; exact I.

Lemma existing_records_tokens_witness :
  cp "printer.home.lan" <> [] /\ cp "10.0.0.5" <> []
  /\ ws_free (cp "printer.home.lan") /\ ws_free (cp "10.0.0.5").
Proof.
  apply (existing_records_tokens
           [cp "10.0.0.3 printer.home.lan"; cp "malformed";
            cp "  10.0.0.5  printer.home.lan  # moved"]).
  vm_compute. reflexivity.
Defined.

Lemma record_read_back_witness :
  get_existing_records
    (Some ([cp "10.0.0.3 printer.home.lan"]
             ++ [dns_record (cp "home.lan") (cp "printer") (cp "10.0.0.5")]))
    !! (cp "printer" ++ cp "." ++ cp "home.lan")
  = Some (cp "10.0.0.5").
Proof.
  apply (record_read_back [cp "10.0.0.3 printer.home.lan"]
           (cp "home.lan") (cp "printer") (cp "10.0.0.5"));
    [vm_compute; discriminate | by_decide..].
Defined.

Lemma sync_after_write_back_witness :
  let clients := [Client (cp "10.0.0.5") (cp "printer");
                  Client (cp "10.0.0.7") (cp "kids-laptop")] in
  sync_loop home_lan three_clients false
    (get_existing_records
       (Some ([cp "10.0.0.3 printer.home.lan"]
                ++ map (fun c => dns_record (dns_domain home_lan)
                                   (hostname c) (ip c)) clients)))
    clients
  = SyncState (Counters 0 0 2 0) [].
Proof.
  cbv zeta.
  apply (sync_after_write_back home_lan three_clients false
           [cp "10.0.0.3 printer.home.lan"]).
  - by_decide.
  - repeat constructor; try (vm_compute; discriminate);
      by_decide.
  - intros c1 c2 H1 H2. apply list_elem_of_In in H1, H2. simpl in H1, H2.
    destruct H1 as [<-|[<-|[]]], H2 as [<-|[<-|[]]]; vm_compute;
      congruence.
Defined.

Lemma active_clients_names_witness :
  Forall (fun x => x ∈ dns_alphabet) (cp "printer-9").
Proof.
  apply (active_clients_names caseless_lower [] two_printers
           (Client (cp "10.0.0.9") (cp "printer-9"))).
  - apply list_elem_of_In. vm_compute. right. left. reflexivity.
  - by_decide.
Defined.

Lemma add_dns_record_url_plain_witness :
  add_dns_record_url true (cp "192.168.1.2") (cp "home.lan")
    (cp "printer") (cp "10.0.0.5")
  = Some (cp "http://192.168.1.2/api/config/dns/hosts/10.0.0.5%20printer.home.lan").
Proof.
  apply (add_dns_record_url_plain true (cp "192.168.1.2") (cp "home.lan")
           (cp "printer") (cp "10.0.0.5"));
    by_decide.
Defined.

Lemma add_dns_record_url_chars_witness :
  exists encoded_record,
    cp "http://pi.hole/api/config/dns/hosts/10.0.0.5%20caf%C3%A9%3F.home.lan"
    = cp "http://" ++ cp "pi.hole" ++ cp "/api/config/dns/hosts/"
        ++ encoded_record
    /\ Forall (fun c => c ∈ url_alphabet) encoded_record.
Proof.
  apply (add_dns_record_url_chars true (cp "pi.hole") (cp "home.lan")
           (cp "caf" ++ [233] ++ cp "?") (cp "10.0.0.5")).
  vm_compute. reflexivity.
Defined.

Lemma add_dns_record_url_injective_witness :
  dns_record (cp "home.lan") (cp "printer") (cp "10.0.0.5")
  = dns_record (cp "lan") (cp "printer.home") (cp "10.0.0.5").
Proof.
  apply (add_dns_record_url_injective true (cp "pi.hole") _ _ _ _ _ _
           (cp "http://pi.hole/api/config/dns/hosts/10.0.0.5%20printer.home.lan"));
    vm_compute; reflexivity.
Defined.

Lemma sanitize_ascii_witness :
  _sanitize_hostname caseless_lower (cp "Bob's Phone") = cp "bobs-phone"
  /\ (length (_sanitize_hostname caseless_lower (cp "Bob's Phone"))
      <= length (cp "Bob's Phone"))%nat.
Proof.
  destruct (sanitize_ascii caseless_lower (cp "Bob's Phone")) as [Heq Hlen].
  - by_decide.
  - split; [|exact Hlen]. rewrite Heq. vm_compute. reflexivity.
Defined.

Lemma handle_duplicates_addresses_witness :
  _handle_duplicates [Client (cp "10.0.0.5") (cp "printer");
                      Client (cp "10.0.0.9") (cp "nas")]
  = [Client (cp "10.0.0.5") (cp "printer");
     Client (cp "10.0.0.9") (cp "nas")].
Proof.
  apply (handle_duplicates_addresses
           [Client (cp "10.0.0.5") (cp "printer");
            Client (cp "10.0.0.9") (cp "nas")]).
  by_decide.
Defined.

Lemma Config_init_required_witness :
  env_dns_domain (Config_load home_env) = Some (cp "home.lan")
  /\ dns_domain (sync_config (Config_load home_env)) <> [].
Proof.
  destruct (Config_init_required home_env) as [_ Hset].
  destruct Hset as [Hdom Hne]; [vm_compute; reflexivity|].
  split; [reflexivity | exact Hne].
Defined.


(** The environment of the examples gives a configuration with two
    subnets. *)
Example home_env_subnets :
  env_allowed_subnets (Config_load home_env) = [cp "10.0."; cp "192.168.1."].
Proof. vm_compute. reflexivity. Qed.

(** Without the domain and the password [Config] raises and [main] exits
    with 1 after two lines of output. *)
Example main_incomplete :
  main caseless_lower known_levels
    (fun key => if String.eqb key "DNS_DOMAIN" then None
                else if String.eqb key "PIHOLE_PASSWORD" then Some []
                else home_env key)
    LogOpened three_clients false false
  = Finished 1
      [cp "Configuration error: Missing required configuration: PIHOLE_PASSWORD, DNS_DOMAIN";
       [10] ++ cp "Please create a config.env file based on config.env.example"]
      [].
Proof. vm_compute. reflexivity. Qed.

(** With a complete configuration and a log level the [logging] module
    knows as something that is no level, [main] exits with 1 before the
    sync, unless [--verbose] replaces the level. *)
Example main_bad_log_level :
  let env := fun key => if String.eqb key "LOG_LEVEL"
                        then Some (cp "basic_format") else home_env key in
  exit_status (main caseless_lower known_levels env LogOpened
                 three_clients false true) = 1%nat
  /\ pihole_calls (main caseless_lower known_levels env LogOpened
                     three_clients false true) = []
  /\ exit_status (main caseless_lower known_levels env LogOpened
                    three_clients true true) = 0%nat.
Proof. vm_compute. repeat split; reflexivity. Qed.

(** A hosts array with a malformed line and a name that occurs twice. *)
Example existing_records_example :
  get_existing_records
    (Some [cp "10.0.0.3 printer.home.lan"; cp "malformed";
           cp "  10.0.0.5  printer.home.lan  # moved"; cp "10.0.0.9 nas.home.lan"])
  = <[cp "printer.home.lan" := cp "10.0.0.5"]>
      (<[cp "nas.home.lan" := cp "10.0.0.9"]> ∅).
Proof. by_decide. Qed.
